(** * fono/build_db.py: syllable splitting, counting and feature aggregation

    A shallow embedding of the pure core of [fono/build_db.py]:
    the grapheme tables, [split_char], the body of [parse_token],
    [count_syllables], [load_fitures_spec] and the [count_in_map] /
    [asdict] methods of [FDPoint], [FDType] and [FD].

    Conventions.
    - A Python [str] is a [string]; its characters are the code points
      below 256.
    - A Python [int] is a [Z].
    - The count dictionaries are [gmap]s keyed by letter; the [points]
      dictionary of an [FDType], whose iteration order is observable in
      [asdict], is an insertion-ordered association list.
    - A [while] loop that may spin is run with fuel: [None] means that the
      loop has not left within the given number of iterations. *)

From Stdlib Require Import ZArith Ascii String.
From stdpp Require Import gmap strings list.

Local Open Scope Z_scope.

(** ** Strings *)

Fixpoint chars (s : string) : list ascii :=
  match s with
  | EmptyString => []
  | String c s' => c :: chars s'
  end.

Fixpoint join (ws : list string) : string :=
  match ws with
  | [] => ""
  | w :: ws' => w +:+ join ws'
  end.

(** ** The two uses of [re] in the module

    Every pattern of the module is one group of alternatives, each a
    literal or a character class.  Python tries the alternatives from left
    to right and, nothing following the group, keeps the first that
    matches. *)

Inductive alt :=
  | Lit (w : string)
  | Class (cs : string).

Definition pattern := list alt.

Fixpoint strip_prefix (p s : string) : option string :=
  match p, s with
  | EmptyString, _ => Some s
  | String a p', String b s' =>
      if Ascii.eqb a b then strip_prefix p' s' else None
  | String _ _, EmptyString => None
  end.

Fixpoint in_class (c : ascii) (cs : string) : bool :=
  match cs with
  | EmptyString => false
  | String d cs' => Ascii.eqb d c || in_class c cs'
  end.

(** [alt_match a s = Some (g, rest)]: alternative [a] matches the prefix
    [g] of [s] and [rest] is what follows it. *)
Definition alt_match (a : alt) (s : string) : option (string * string) :=
  match a with
  | Lit w =>
      match strip_prefix w s with
      | Some rest => Some (w, rest)
      | None => None
      end
  | Class cs =>
      match s with
      | String c rest => if in_class c cs then Some (String c "", rest) else None
      | EmptyString => None
      end
  end.

(** [pattern.match(word)] for an anchored pattern: the matched group and
    [word[end:]]. *)
Fixpoint re_match (p : pattern) (s : string) : option (string * string) :=
  match p with
  | [] => None
  | a :: p' =>
      match alt_match a s with
      | Some r => Some r
      | None => re_match p' s
      end
  end.

(** [pattern.search(token)] followed by the three slices taken at
    [m.span()]: [token[:start]], the group and [token[end:]]. *)
Fixpoint re_search (p : pattern) (s : string) : option (string * string * string) :=
  match re_match p s with
  | Some (g, rest) => Some ("", g, rest)
  | None =>
      match s with
      | EmptyString => None
      | String c s' =>
          match re_search p s' with
          | Some (pre, g, rest) => Some (String c pre, g, rest)
          | None => None
          end
      end
  end.

(** ** Grapheme tables *)

Definition cons : list string :=
  [ "kh"; "ng"; "ny"; "sy";
    "b"; "c"; "d"; "f"; "g"; "h"; "j"; "k"; "l"; "m"; "n"; "p"; "q";
    "r"; "s"; "t"; "v"; "w"; "x"; "y"; "z" ].

Definition vocabs : list string :=
  [ "ai"; "au"; "ei"; "oi"; "a"; "i"; "u"; "e"; "o" ].

Definition is_vocal (c : string) : bool := bool_decide (c ∈ vocabs).

Definition re_vocab : pattern :=
  [ Lit "ai"; Lit "au"; Lit "ei"; Lit "oi"; Class "aiueo" ].

(** ** [split_char] *)

Inductive tag := konsonan | vocal.

Global Instance tag_eq_dec : EqDecision tag.
Proof. solve_decision. Defined.

Definition gab_kons : pattern :=
  [ Lit "kh"; Lit "ng"; Lit "ny"; Lit "sy"; Class "bcdfghjklmnpqrstvwxyz" ].

Definition v_pattern : pattern := [ Class "aiueo" ].

Definition patterns : list (pattern * tag) :=
  [ (gab_kons, konsonan); (v_pattern, vocal) ].

(** One run of the inner [for] loop, started with the current [word] and
    [result]: a pattern that matches replaces [word] by [word[end:]] and
    appends its pair, and the next pattern is tried on the new [word]. *)
Fixpoint for_patterns (ps : list (pattern * tag)) (word : string)
    (result : list (string * tag)) : string * list (string * tag) :=
  match ps with
  | [] => (word, result)
  | (p, tg) :: ps' =>
      match re_match p word with
      | Some (match_w, rest) => for_patterns ps' rest (result ++ [(match_w, tg)])
      | None => for_patterns ps' word result
      end
  end.

(** The [while word != ''] loop.  The body has no [break], [return] or
    [raise]: the only exit is the loop test. *)
Fixpoint while_word (fuel : nat) (word : string) (result : list (string * tag))
    : option (list (string * tag)) :=
  match fuel with
  | O => None
  | S fuel' =>
      if decide (word = "") then Some result
      else
        let '(word', result') := for_patterns patterns word result in
        while_word fuel' word' result'
  end.

Definition split_char (fuel : nat) (s : string) : option (list (string * tag)) :=
  while_word fuel s [].

(** ** [parse_token] *)

Record SyllableToken := mkToken {
  token : string;
  nucleus : string;
  onset : string;
  coda : string
}.

Global Instance SyllableToken_eq_dec : EqDecision SyllableToken.
Proof. solve_decision. Defined.

(** The body of the loop over [tokens]: [None] is the [continue] taken
    when [re_vocab.search] finds nothing. *)
Definition decompose (tok : string) : option SyllableToken :=
  match re_search re_vocab tok with
  | None => None
  | Some (pre, g, post) =>
      Some {| token := tok; nucleus := g; onset := pre; coda := post |}
  end.

Record ParsedWord := mkParsed {
  word : string;
  tokens : list SyllableToken
}.

(** [parser.parse] belongs to [fono.parser]; it is a parameter here. *)
Definition parse_token (parse : string → list string) (w : string) : ParsedWord :=
  {| word := w; tokens := omap decompose (parse w) |}.

Definition tokenize (parse : string → list string) (database : list string)
    : list ParsedWord :=
  map (parse_token parse) database.

(** ** Exceptions

    A statement that raises leaves the objects it has already mutated as
    they are: an outcome carries the state in both cases. *)

Inductive error :=
  | KeyError (key : string)
  | Exception (msg : string).

Inductive outcome (S : Type) :=
  | Done (s : S)
  | Raised (e : error) (s : S).
Arguments Done {S} s.
Arguments Raised {S} e s.

Definition state_of {S} (r : outcome S) : S :=
  match r with Done s | Raised _ s => s end.

Definition is_raised {S} (r : outcome S) : bool :=
  match r with Done _ => false | Raised _ _ => true end.

(** [andthen r k]: run [k] on the state unless [r] has raised. *)
Definition andthen {S} (r : outcome S) (k : S → outcome S) : outcome S :=
  match r with
  | Done s => k s
  | Raised e s => Raised e s
  end.

(** ** [count_syllables] *)

Module Kons.
(** The inner dictionary [{'onset': _, 'coda': _}] of a consonant. *)
Record t := mk { onset : Z; coda : Z }.

Global Instance eq_dec : EqDecision t.
Proof. solve_decision. Defined.
End Kons.

Record SyllCounter := mkSyllCounter {
  vocab : gmap string Z;
  kons : gmap string Kons.t
}.

Definition kons_counters0 : gmap string Kons.t :=
  list_to_map ((λ c, (c, Kons.mk 0 0)) <$> cons).

Definition vocab_counters0 : gmap string Z :=
  list_to_map ((λ c, (c, 0)) <$> vocabs).

Inductive slot := at_onset | at_coda.

Definition hit (sl : slot) (k : Kons.t) : Kons.t :=
  match sl with
  | at_onset => Kons.mk (Kons.onset k + 1) (Kons.coda k)
  | at_coda => Kons.mk (Kons.onset k) (Kons.coda k + 1)
  end.

(** [for (char, _) in units: kons_counters[char][sl] += 1]; the subscript
    [kons_counters[char]] raises [KeyError] for a unit that is no key. *)
Fixpoint hit_units (sl : slot) (units : list (string * tag))
    (kc : gmap string Kons.t) : outcome (gmap string Kons.t) :=
  match units with
  | [] => Done kc
  | (char, _) :: units' =>
      match kc !! char with
      | None => Raised (KeyError char) kc
      | Some k => hit_units sl units' (<[char := hit sl k]> kc)
      end
  end.

(** [vocab_counters[nucleus] += 1]. *)
Definition hit_nucleus (n : string) (vc : gmap string Z) : outcome (gmap string Z) :=
  match vc !! n with
  | None => Raised (KeyError n) vc
  | Some v => Done (<[n := v + 1]> vc)
  end.

Definition with_kons (c : SyllCounter) (r : outcome (gmap string Kons.t))
    : outcome SyllCounter :=
  match r with
  | Done kc => Done (mkSyllCounter (vocab c) kc)
  | Raised e kc => Raised e (mkSyllCounter (vocab c) kc)
  end.

Definition with_vocab (c : SyllCounter) (r : outcome (gmap string Z))
    : outcome SyllCounter :=
  match r with
  | Done vc => Done (mkSyllCounter vc (kons c))
  | Raised e vc => Raised e (mkSyllCounter vc (kons c))
  end.

(** The body of the [try] for one token.  [None]: a call of [split_char]
    has not returned within [fuel] iterations. *)
Definition try_token (fuel : nat) (tok : SyllableToken) (c : SyllCounter)
    : option (outcome SyllCounter) :=
  us ← split_char fuel (onset tok);
  match with_kons c (hit_units at_onset us (kons c)) with
  | Raised e c1 => Some (Raised e c1)
  | Done c1 =>
      vs ← split_char fuel (coda tok);
      match with_kons c1 (hit_units at_coda vs (kons c1)) with
      | Raised e c2 => Some (Raised e c2)
      | Done c2 => Some (with_vocab c2 (hit_nucleus (nucleus tok) (vocab c2)))
      end
  end.

(** [try: ... except Exception as ex: continue]. *)
Definition count_token (fuel : nat) (tok : SyllableToken) (c : SyllCounter)
    : option SyllCounter :=
  state_of <$> try_token fuel tok c.

Fixpoint count_tokens (fuel : nat) (toks : list SyllableToken) (c : SyllCounter)
    : option SyllCounter :=
  match toks with
  | [] => Some c
  | tok :: toks' => c' ← count_token fuel tok c; count_tokens fuel toks' c'
  end.

Fixpoint count_words (fuel : nat) (data : list ParsedWord) (c : SyllCounter)
    : option SyllCounter :=
  match data with
  | [] => Some c
  | d :: data' => c' ← count_tokens fuel (tokens d) c; count_words fuel data' c'
  end.

Definition count_syllables (fuel : nat) (data : list ParsedWord) : option SyllCounter :=
  count_words fuel data (mkSyllCounter vocab_counters0 kons_counters0).

Definition identity_parser (w : string) : list string := [w].

(** ** Feature descriptions: [FDPoint], [FDType], [FD] *)

(** The values a count map may hold: an [int], a [dict] (with integer
    entries), or an object of any other type. *)
Inductive value :=
  | VInt (n : Z)
  | VDict (d : gmap string Z)
  | VOther.

(** The documents built by [asdict]. *)
Inductive point_doc :=
  | vocal_doc (letter : string) (total : Z)
  | kons_doc (letter : string) (coda onset total : Z).

Module FDPoint.
Record t := mk {
  letter : string;
  nucleus : Z;
  coda : Z;
  onset : Z
}.

Global Instance eq_dec : EqDecision t.
Proof. solve_decision. Defined.

(** [FDPoint(letter=char)]. *)
Definition new (char : string) : t := mk char 0 0 0.

(** The message of an exception is kept without the formatted value. *)
Definition count_in_map (map : gmap string value) (self : t) : outcome t :=
  match map !! letter self with
  | None => Done self
  | Some val =>
      if is_vocal (letter self) then
        match val with
        | VInt n => Done (mk (letter self) n (coda self) (onset self))
        | _ => Raised (Exception "Unknown value") self
        end
      else
        match val with
        | VDict d =>
            match d !! "coda", d !! "onset" with
            | None, _ => Raised (Exception "coda is not in") self
            | Some _, None => Raised (Exception "onset is not in") self
            | Some c, Some o => Done (mk (letter self) (nucleus self) c o)
            end
        | _ => Raised (Exception "Unknown value") self
        end
  end.

Definition asdict (self : t) : point_doc :=
  if is_vocal (letter self) then vocal_doc (letter self) (nucleus self)
  else kons_doc (letter self) (coda self) (onset self) (coda self + onset self).
End FDPoint.

Module FDType.
Record t := mk {
  ftype : string;
  points : list (string * FDPoint.t)
}.

Definition has_key (char : string) (ps : list (string * FDPoint.t)) : bool :=
  bool_decide (char ∈ ps.*1).

Definition add_letter (char : string) (self : t) : t :=
  if has_key char (points self) then self
  else mk (ftype self) (points self ++ [(char, FDPoint.new char)]).

(** [for fd_point in self.points.values(): fd_point.count_in_map(map)]:
    the points before the one that raises stay updated. *)
Fixpoint count_points (map : gmap string value) (ps : list (string * FDPoint.t))
    : outcome (list (string * FDPoint.t)) :=
  match ps with
  | [] => Done []
  | (k, p) :: ps' =>
      match FDPoint.count_in_map map p with
      | Raised e p' => Raised e ((k, p') :: ps')
      | Done p' =>
          match count_points map ps' with
          | Done r => Done ((k, p') :: r)
          | Raised e r => Raised e ((k, p') :: r)
          end
      end
  end.

Definition count_in_map (map : gmap string value) (self : t) : outcome t :=
  match count_points map (points self) with
  | Done ps => Done (mk (ftype self) ps)
  | Raised e ps => Raised e (mk (ftype self) ps)
  end.

Definition asdict (self : t) : string * list point_doc :=
  (ftype self, (λ kv, FDPoint.asdict kv.2) <$> points self).
End FDType.

Module FD.
Record t := mk {
  name : string;
  plus : FDType.t;
  minus : FDType.t
}.

Definition count_in_map (counter_map : gmap string value) (self : t) : outcome t :=
  match FDType.count_in_map counter_map (plus self) with
  | Raised e p => Raised e (mk (name self) p (minus self))
  | Done p =>
      match FDType.count_in_map counter_map (minus self) with
      | Raised e m => Raised e (mk (name self) p m)
      | Done m => Done (mk (name self) p m)
      end
  end.

Record doc := mk_doc {
  doc_name : string;
  doc_plus : string * list point_doc;
  doc_minus : string * list point_doc
}.

Definition asdict (self : t) : doc :=
  mk_doc (name self) (FDType.asdict (plus self)) (FDType.asdict (minus self)).
End FD.

(** [for fd in fiturs: fd.count_in_map(counter)], as the main program runs
    it on the loaded features. *)
Fixpoint count_all (map : gmap string value) (fds : list FD.t) : outcome (list FD.t) :=
  match fds with
  | [] => Done []
  | fd :: fds' =>
      match FD.count_in_map map fd with
      | Raised e fd' => Raised e (fd' :: fds')
      | Done fd' =>
          match count_all map fds' with
          | Done r => Done (fd' :: r)
          | Raised e r => Raised e (fd' :: r)
          end
      end
  end.

(** [[{ **fd.asdict(), 'tag': tag } for fd in fiturs]]. *)
Definition documents (tg : string) (fds : list FD.t) : list (FD.doc * string) :=
  (λ fd, (FD.asdict fd, tg)) <$> fds.

(** The count maps of [count_syllables], as the objects [count_in_map]
    receives. *)
Definition vocab_values (vc : gmap string Z) : gmap string value := VInt <$> vc.

Definition kons_values (kc : gmap string Kons.t) : gmap string value :=
  (λ k, VDict (<["onset" := Kons.onset k]> (<["coda" := Kons.coda k]> ∅))) <$> kc.

(** ** [load_fitures_spec] *)

(** [str.isspace] on the code points below 256. *)
Definition is_space (c : ascii) : bool :=
  let n := nat_of_ascii c in
  ((9 <=? n) && (n <=? 13) || (28 <=? n) && (n <=? 32) || (n =? 133) || (n =? 160))%nat.

Fixpoint lstrip (s : string) : string :=
  match s with
  | EmptyString => ""
  | String c s' => if is_space c then lstrip s' else s
  end.

Fixpoint rstrip (s : string) : string :=
  match s with
  | EmptyString => ""
  | String c s' =>
      match rstrip s' with
      | EmptyString => if is_space c then "" else String c ""
      | r => String c r
      end
  end.

Definition strip (s : string) : string := rstrip (lstrip s).

(** [s.split(' ')]: every single space separates, empty fields are kept. *)
Fixpoint split_space (s : string) : list string :=
  match s with
  | EmptyString => [""]
  | String c s' =>
      if Ascii.eqb c " " then "" :: split_space s'
      else
        match split_space s' with
        | w :: ws => String c w :: ws
        | [] => [String c ""]
        end
  end.

Definition add_flag (char fitur_flag : string) (fd : FD.t) : FD.t :=
  if decide (fitur_flag = "+") then
    FD.mk (FD.name fd) (FDType.add_letter char (FD.plus fd)) (FD.minus fd)
  else if decide (fitur_flag = "-") then
    FD.mk (FD.name fd) (FD.plus fd) (FDType.add_letter char (FD.minus fd))
  else fd.

(** [for fitur_flag, fd in zip(fitur_flags, fit_descs)]. *)
Fixpoint add_flags (char : string) (fitur_flags : list string) (fit_descs : list FD.t)
    : list FD.t :=
  match fitur_flags, fit_descs with
  | fl :: fls, fd :: fds => add_flag char fl fd :: add_flags char fls fds
  | _, _ => fit_descs
  end.

Definition add_line (fit_descs : list FD.t) (line : string) : list FD.t :=
  match split_space (strip line) with
  | char :: fitur_flags => add_flags char fitur_flags fit_descs
  | [] => fit_descs
  end.

(** [lines] is what [f.readlines()] returns for the file at [path]. *)
Definition load_fitures_spec (fiturs : list string) (lines : list string) : list FD.t :=
  foldl add_line
    ((λ name, FD.mk name (FDType.mk "plus" []) (FDType.mk "minus" [])) <$> fiturs)
    lines.

(** * Properties *)

(** ** The embedding on a few inputs *)

Example split_ng : split_char 5 "ng" = Some [("ng", konsonan)].
Proof. reflexivity. Qed.

Example split_ai : split_char 5 "ai" = Some [("a", vocal); ("i", vocal)].
Proof. reflexivity. Qed.

Example split_tra : split_char 5 "tra" = Some [("t", konsonan); ("r", konsonan); ("a", vocal)].
Proof. reflexivity. Qed.

Example split_1 : split_char 50 "b1" = None.
Proof. reflexivity. Qed.

Example decompose_trak :
  decompose "trak" = Some {| token := "trak"; nucleus := "a"; onset := "tr"; coda := "k" |}.
Proof. reflexivity. Qed.

Example count_ba_ban :
  count_syllables 9 (tokenize identity_parser ["ba"; "ban"]) =
  Some (mkSyllCounter (<["a" := 2]> vocab_counters0)
          (<["n" := Kons.mk 0 1]> (<["b" := Kons.mk 2 0]> kons_counters0))).
Proof. vm_compute. reflexivity. Qed.

Example load_two :
  load_fitures_spec ["voice"; "nasal"] ["b + -
"; "m + +
"; "p - 0
"] =
  [ FD.mk "voice"
      (FDType.mk "plus" [("b", FDPoint.new "b"); ("m", FDPoint.new "m")])
      (FDType.mk "minus" [("p", FDPoint.new "p")]);
    FD.mk "nasal"
      (FDType.mk "plus" [("m", FDPoint.new "m")])
      (FDType.mk "minus" [("b", FDPoint.new "b")]) ].
Proof. vm_compute. reflexivity. Qed.

(** ** Strings and matching *)

Lemma app_String c (s t : string) : String c s +:+ t = String c (s +:+ t).
Proof. reflexivity. Qed.

Lemma app_empty_l (t : string) : "" +:+ t = t.
Proof. reflexivity. Qed.

Lemma app_empty_r (s : string) : s +:+ "" = s.
Proof. induction s as [|c s IH]; [done|]. by rewrite app_String, IH. Qed.

Lemma app_assoc_s (s t u : string) : (s +:+ t) +:+ u = s +:+ (t +:+ u).
Proof. induction s as [|c s IH]; [done|]. by rewrite !app_String, IH. Qed.

Lemma length_app_s (s t : string) :
  String.length (s +:+ t) = (String.length s + String.length t)%nat.
Proof. induction s as [|c s IH]; [done|]. rewrite app_String. simpl. by rewrite IH. Qed.

Lemma chars_app (s t : string) : chars (s +:+ t) = chars s ++ chars t.
Proof. induction s as [|c s IH]; [done|]. rewrite app_String. simpl. by rewrite IH. Qed.

Lemma join_app (xs ys : list string) : join (xs ++ ys) = join xs +:+ join ys.
Proof.
  induction xs as [|x xs IH]; [done|].
  simpl. by rewrite IH, app_assoc_s.
Qed.

Lemma strip_prefix_app p s r : strip_prefix p s = Some r → s = p +:+ r.
Proof.
  revert s. induction p as [|a p IH]; intros s H.
  - destruct s; simpl in H; by inversion H.
  - destruct s as [|b s]; simpl in H; [done|].
    destruct (Ascii.eqb_spec a b) as [->|]; [|done].
    rewrite app_String. f_equal. by apply IH.
Qed.

(** The strings an alternative can match. *)
Definition singles (cs : string) : list string := (λ c, String c "") <$> chars cs.

Definition graphemes (p : pattern) : list string :=
  a ← p; match a with Lit w => [w] | Class cs => singles cs end.

Lemma in_class_singles c cs : in_class c cs = true ↔ String c "" ∈ singles cs.
Proof.
  unfold singles. induction cs as [|d cs IH]; simpl.
  - split; [done|]. by intros ?%elem_of_nil.
  - rewrite orb_true_iff, elem_of_cons, IH.
    split; (intros [H|H]; [left|by right]).
    + apply Ascii.eqb_eq in H. by subst.
    + apply Ascii.eqb_eq. congruence.
Qed.

Lemma alt_match_spec a s g r :
  alt_match a s = Some (g, r) →
  s = g +:+ r ∧ g ∈ (match a with Lit w => [w] | Class cs => singles cs end).
Proof.
  destruct a as [w|cs]; simpl.
  - destruct (strip_prefix w s) as [r'|] eqn:E; [|done].
    intros [= <- <-]. split; [by apply strip_prefix_app|]. by apply list_elem_of_singleton.
  - destruct s as [|c s']; [done|].
    destruct (in_class c cs) eqn:E; [|done].
    intros [= <- <-]. split; [done|]. by apply in_class_singles.
Qed.

Lemma re_match_spec p s g r :
  re_match p s = Some (g, r) → s = g +:+ r ∧ g ∈ graphemes p.
Proof.
  unfold graphemes. induction p as [|a p IH]; simpl; [done|].
  destruct (alt_match a s) as [[g' r']|] eqn:E.
  - intros [= -> ->]. apply alt_match_spec in E as [? ?].
    split; [done|]. apply elem_of_app. by left.
  - intros [? ?]%IH. split; [done|]. apply elem_of_app. by right.
Qed.

Lemma re_match_class p c s cs :
  Class cs ∈ p → in_class c cs = true → is_Some (re_match p (String c s)).
Proof.
  induction p as [|a p IH]; [by intros ?%elem_of_nil|].
  intros Hin Hc. simpl.
  destruct (alt_match a (String c s)) as [r|] eqn:E; [by eexists|].
  apply elem_of_cons in Hin as [<-|Hin]; [|by apply IH].
  simpl in E. by rewrite Hc in E.
Qed.

Lemma graphemes_gab_kons : graphemes gab_kons = cons.
Proof. reflexivity. Qed.

Lemma graphemes_re_vocab : graphemes re_vocab = vocabs.
Proof. reflexivity. Qed.

Lemma graphemes_v_pattern : Forall (λ g, g ∈ vocabs) (graphemes v_pattern).
Proof. apply (bool_decide_unpack _). vm_compute. exact I. Qed.

(** ** Letters of the tables *)

Definition in_tables (c : ascii) : Prop :=
  String c "" ∈ cons ∨ String c "" ∈ vocabs.

Global Instance in_tables_dec c : Decision (in_tables c).
Proof. unfold in_tables. apply _. Defined.

Definition grapheme (g : string) : Prop := g ∈ cons ∨ g ∈ vocabs.

Global Instance grapheme_dec g : Decision (grapheme g).
Proof. unfold grapheme. apply _. Defined.

Lemma in_tables_class c :
  bool_decide (in_tables c) =
  in_class c "bcdfghjklmnpqrstvwxyz" || in_class c "aiueo".
Proof. destruct c as [[] [] [] [] [] [] [] []]; vm_compute; reflexivity. Qed.

Lemma graphemes_letters :
  Forall (λ g, g ≠ "" ∧ Forall in_tables (chars g)) (cons ++ vocabs).
Proof. apply (bool_decide_unpack _). vm_compute. exact I. Qed.

Lemma grapheme_letters g : grapheme g → g ≠ "" ∧ Forall in_tables (chars g).
Proof.
  intros Hg. pose proof graphemes_letters as H.
  rewrite Forall_forall in H. apply H. apply elem_of_app. exact Hg.
Qed.

(** ** The loop of [split_char] *)

(** The class a substring has by the tables. *)
Definition class_of (g : string) : option tag :=
  if decide (g ∈ cons) then Some konsonan
  else if decide (g ∈ vocabs) then Some vocal
  else None.

Definition unit_ok (u : string * tag) : Prop := class_of u.1 = Some u.2.

Lemma class_of_cons g : g ∈ cons → class_of g = Some konsonan.
Proof. intros H. unfold class_of. by rewrite decide_True. Qed.

Lemma class_of_v_pattern g : g ∈ graphemes v_pattern → class_of g = Some vocal.
Proof.
  assert (Forall (λ g, class_of g = Some vocal) (graphemes v_pattern)) as H.
  { apply (bool_decide_unpack _). vm_compute. exact I. }
  rewrite Forall_forall in H. apply H.
Qed.

Lemma unit_ok_grapheme u : unit_ok u → grapheme u.1.
Proof.
  unfold unit_ok, class_of, grapheme. repeat case_decide; intros; try done; auto.
Qed.

(** What one run of the [for] loop does to [word] and [result]. *)
Lemma for_patterns_spec w r w' r' :
  for_patterns patterns w r = (w', r') →
  ∃ us, r' = r ++ us ∧ w = join us.*1 +:+ w' ∧ Forall unit_ok us.
Proof.
  unfold patterns. cbn [for_patterns].
  destruct (re_match gab_kons w) as [[g1 w1]|] eqn:E1.
  - apply re_match_spec in E1 as [-> Hg1]. rewrite graphemes_gab_kons in Hg1.
    destruct (re_match v_pattern w1) as [[g2 w2]|] eqn:E2.
    + apply re_match_spec in E2 as [-> Hg2].
      intros [= <- <-]. exists [(g1, konsonan); (g2, vocal)].
      rewrite <- (assoc_L (++)). simpl. rewrite app_empty_r, app_assoc_s.
      split_and!; [done|done|].
      repeat constructor; [by apply class_of_cons|by apply class_of_v_pattern].
    + intros [= <- <-]. exists [(g1, konsonan)]. simpl. rewrite app_empty_r.
      split_and!; [done|done|]. repeat constructor. by apply class_of_cons.
  - destruct (re_match v_pattern w) as [[g2 w2]|] eqn:E2.
    + apply re_match_spec in E2 as [-> Hg2].
      intros [= <- <-]. exists [(g2, vocal)]. simpl. rewrite app_empty_r.
      split_and!; [done|done|]. repeat constructor. by apply class_of_v_pattern.
    + intros [= <- <-]. exists []. by rewrite app_nil_r.
Qed.

Lemma join_units_letters (us : list (string * tag)) :
  Forall unit_ok us → Forall in_tables (chars (join us.*1)).
Proof.
  induction 1 as [|u us Hu _ IH]; simpl; [constructor|].
  rewrite chars_app. apply Forall_app. split; [|done].
  by apply grapheme_letters, unit_ok_grapheme.
Qed.

(** On a word whose first character is a letter of the tables the [for]
    loop consumes at least that character. *)
Lemma for_patterns_progress c s r w' r' :
  in_tables c →
  for_patterns patterns (String c s) r = (w', r') →
  (String.length w' < String.length (String c s))%nat.
Proof.
  intros Hc. apply (bool_decide_eq_true_2 _) in Hc. rewrite in_tables_class in Hc.
  unfold patterns. cbn [for_patterns].
  destruct (re_match gab_kons (String c s)) as [[g1 w1]|] eqn:E1.
  - apply re_match_spec in E1 as [E1 Hg1]. rewrite graphemes_gab_kons in Hg1.
    assert (g1 ≠ "") as Hne by (apply grapheme_letters; by left).
    assert (String.length w1 < String.length (String c s))%nat as Hlt.
    { rewrite E1, length_app_s. destruct g1; [done|simpl; lia]. }
    destruct (re_match v_pattern w1) as [[g2 w2]|] eqn:E2.
    + apply re_match_spec in E2 as [E2 _]. intros [= <- <-].
      rewrite E2, length_app_s in Hlt. lia.
    + by intros [= <- <-].
  - apply orb_true_iff in Hc as [Hc|Hc].
    + eapply (re_match_class gab_kons _ s) in Hc as [? Hc]; [|unfold gab_kons; set_solver].
      congruence.
    + eapply (re_match_class v_pattern _ s) in Hc as [[g2 w2] Hc]; [|unfold v_pattern; set_solver].
      rewrite Hc. apply re_match_spec in Hc as [E2 Hg2]. intros [= <- <-].
      assert (g2 ≠ "") as Hne.
      { apply grapheme_letters. right. pose proof graphemes_v_pattern as H.
        rewrite Forall_forall in H. by apply H. }
      rewrite E2, length_app_s. destruct g2; [done|simpl; lia].
Qed.

(** A word of letters is split after at most one iteration per character. *)
Lemma while_word_letters fuel w r :
  Forall in_tables (chars w) →
  (String.length w < fuel)%nat →
  ∃ us, while_word fuel w r = Some (r ++ us) ∧ join us.*1 = w ∧ Forall unit_ok us.
Proof.
  revert w r. induction fuel as [|fuel IH]; intros w r Hw Hlen; [lia|].
  cbn [while_word]. case_decide as Hemp.
  { subst. exists []. by rewrite app_nil_r. }
  destruct w as [|c s]; [done|].
  destruct (for_patterns patterns (String c s) r) as [w' r'] eqn:E.
  pose proof E as (us & -> & Ew & Hus)%for_patterns_spec.
  apply for_patterns_progress in E; [|by inversion Hw].
  destruct (IH w' (r ++ us)) as (vs & -> & Hj & Hvs).
  - rewrite Ew, chars_app in Hw. by apply Forall_app in Hw as [_ ?].
  - lia.
  - exists (us ++ vs). rewrite (assoc_L (++)). split_and!; [done| |by apply Forall_app].
    by rewrite fmap_app, join_app, Hj.
Qed.

(** A word with a character outside the tables never leaves the loop. *)
Lemma while_word_spins fuel w r :
  Exists (λ c, ¬ in_tables c) (chars w) → while_word fuel w r = None.
Proof.
  revert w r. induction fuel as [|fuel IH]; intros w r Hw; [done|].
  cbn [while_word]. case_decide as Hemp.
  { subst. by apply Exists_nil in Hw. }
  destruct (for_patterns patterns w r) as [w' r'] eqn:E.
  apply for_patterns_spec in E as (us & -> & Ew & Hus).
  apply IH. rewrite Ew, chars_app in Hw. apply Exists_app in Hw as [Hw|Hw]; [|done].
  apply join_units_letters in Hus. apply Exists_exists in Hw as (c & Hc & Hn).
  rewrite Forall_forall in Hus. by apply Hus in Hc.
Qed.

(** The loop body gives back the state it was given when the word starts
    with a character outside the tables. *)
Lemma for_patterns_stuck c s r :
  ¬ in_tables c → for_patterns patterns (String c s) r = (String c s, r).
Proof.
  intros Hc.
  destruct (for_patterns patterns (String c s) r) as [w' r'] eqn:E.
  apply for_patterns_spec in E as (us & -> & Ew & Hus).
  destruct us as [|[g tg] us].
  - simpl in Ew. rewrite app_empty_l in Ew. by rewrite app_nil_r, <- Ew.
  - exfalso. apply Hc. apply Forall_inv in Hus.
    apply unit_ok_grapheme, grapheme_letters in Hus as [Hne Hg].
    simpl in Ew, Hne, Hg. destruct g as [|d g]; [done|].
    rewrite !app_String in Ew. injection Ew as -> _. by inversion Hg.
Qed.

(** More iterations do not change a result. *)
Lemma while_word_mono fuel fuel' w r res :
  (fuel ≤ fuel')%nat → while_word fuel w r = Some res → while_word fuel' w r = Some res.
Proof.
  revert fuel' w r. induction fuel as [|fuel IH]; intros fuel' w r Hle; [done|].
  destruct fuel' as [|fuel']; [lia|]. cbn [while_word].
  case_decide; [done|].
  destruct (for_patterns patterns w r) as [w' r']. apply IH. lia.
Qed.

(** ** [split_char]: priority, failure, reconstruction *)

(** C1.  [split_char] tries the consonant digraphs before the single
    consonants, so "ng" comes back as the one unit "ng"; its vowel pattern
    is [^[aiueo]] and holds no diphthong, so "ai" comes back as the two
    units "a" and "i", not as the one unit "ai" of the table [vocabs]. *)
Theorem split_char_ng_ai (n : nat) :
  split_char (2 + n) "ng" = Some [("ng", konsonan)] ∧
  split_char (3 + n) "ai" = Some [("a", vocal); ("i", vocal)] ∧
  "ai" ∈ vocabs.
Proof.
  split_and!; [reflexivity|reflexivity|].
  apply (bool_decide_unpack _). vm_compute. exact I.
Qed.

(** C2.  On a string with a character outside both tables [split_char]
    neither returns nor raises: whatever the number of iterations allowed,
    the [while] loop has not been left. *)
Theorem split_char_unrecognized_spins (s : string) :
  Exists (λ c, ¬ in_tables c) (chars s) → ∀ fuel, split_char fuel s = None.
Proof. intros Hs fuel. by apply while_word_spins. Qed.

Lemma split_char_unrecognized_spins_witness :
  Exists (λ c, ¬ in_tables c) (chars "b1") ∧ ∀ fuel, split_char fuel "b1" = None.
Proof.
  assert (Exists (λ c, ¬ in_tables c) (chars "b1")) as H.
  { apply (bool_decide_unpack _). vm_compute. exact I. }
  split; [exact H|]. exact (split_char_unrecognized_spins "b1" H).
Defined.

(** A string made of graphemes of the two tables. *)
Definition composed (s : string) : Prop :=
  ∃ gs, Forall grapheme gs ∧ join gs = s.

Lemma composed_letters s : composed s → Forall in_tables (chars s).
Proof.
  intros (gs & Hgs & <-). induction Hgs as [|g gs Hg _ IH]; simpl; [constructor|].
  rewrite chars_app. apply Forall_app. split; [|done]. by apply grapheme_letters.
Qed.

(** C5.  On a string made of graphemes of the tables, [split_char] returns
    (one iteration per character and one more for the last test are
    enough), the substrings of its pairs concatenate to the string, and
    the class of each pair is the one its substring has by the tables. *)
Theorem split_char_reconstructs (s : string) :
  composed s →
  ∃ units,
    (∀ fuel, (String.length s < fuel)%nat → split_char fuel s = Some units) ∧
    join units.*1 = s ∧
    Forall (λ u, class_of u.1 = Some u.2) units.
Proof.
  intros Hs%composed_letters.
  destruct (while_word_letters (S (String.length s)) s [] Hs) as (us & Hrun & Hj & Hus); [lia|].
  exists us. split_and!; [|done|done].
  intros fuel Hfuel. unfold split_char.
  apply (while_word_mono (S (String.length s))); [lia|done].
Qed.

Lemma split_char_reconstructs_witness :
  composed "ngai" ∧
  ∃ units,
    (∀ fuel, (String.length "ngai" < fuel)%nat → split_char fuel "ngai" = Some units) ∧
    join units.*1 = "ngai" ∧
    Forall (λ u, class_of u.1 = Some u.2) units.
Proof.
  assert (composed "ngai") as H.
  { exists ["ng"; "ai"]. split; [|reflexivity].
    apply (bool_decide_unpack _). vm_compute. exact I. }
  split; [exact H|]. exact (split_char_reconstructs "ngai" H).
Defined.

(** ** [parse_token]: the nucleus is the first vowel match *)

Definition vowel (c : ascii) : Prop := String c "" ∈ vocabs.

Global Instance vowel_dec c : Decision (vowel c).
Proof. unfold vowel. apply _. Defined.

(** The two-letter vowels of the table: "ai", "au", "ei", "oi". *)
Definition diphthongs : list string :=
  filter (λ g, String.length g = 2%nat) vocabs.

Lemma vowel_class c : bool_decide (vowel c) = in_class c "aiueo".
Proof. destruct c as [[] [] [] [] [] [] [] []]; vm_compute; reflexivity. Qed.

Definition head_vowel (g : string) : bool :=
  match g with
  | String c _ => bool_decide (vowel c)
  | EmptyString => false
  end.

Lemma vocabs_head : Forall (λ g, head_vowel g = true) vocabs.
Proof. apply (bool_decide_unpack _). vm_compute. exact I. Qed.

Lemma vocabs_nonempty : "" ∉ vocabs.
Proof. apply (bool_decide_unpack _). vm_compute. exact I. Qed.

Lemma vocabs_head_vowel c g : String c g ∈ vocabs → vowel c.
Proof.
  intros H. pose proof vocabs_head as Hv. rewrite Forall_forall in Hv.
  apply Hv in H. simpl in H. by apply bool_decide_eq_true in H.
Qed.

Lemma re_match_vocab_empty : re_match re_vocab "" = None.
Proof. reflexivity. Qed.

Lemma re_match_vocab_none c s : ¬ vowel c → re_match re_vocab (String c s) = None.
Proof.
  intros Hc. destruct (re_match re_vocab (String c s)) as [[g r]|] eqn:E; [|done].
  apply re_match_spec in E as [E Hg]. rewrite graphemes_re_vocab in Hg.
  destruct g as [|d g]; [by apply vocabs_nonempty in Hg|].
  rewrite app_String in E. injection E as -> _.
  exfalso. apply Hc. by eapply vocabs_head_vowel, Hg.
Qed.

Lemma re_match_vocab_some c s : vowel c → is_Some (re_match re_vocab (String c s)).
Proof.
  intros Hc. apply (bool_decide_eq_true_2 _) in Hc. rewrite vowel_class in Hc.
  apply (re_match_class re_vocab c s "aiueo"); [|done].
  unfold re_vocab. set_solver.
Qed.

(** [re_vocab.search]: nothing before the match holds a vowel, and the
    group is what [re_vocab] matches at the position found. *)
Lemma re_search_vocab_spec tok :
  match re_search re_vocab tok with
  | Some (pre, g, post) =>
      tok = pre +:+ g +:+ post ∧
      Forall (λ c, ¬ vowel c) (chars pre) ∧
      re_match re_vocab (g +:+ post) = Some (g, post)
  | None => Forall (λ c, ¬ vowel c) (chars tok)
  end.
Proof.
  induction tok as [|c s IH].
  - cbn [re_search]. rewrite re_match_vocab_empty. constructor.
  - cbn [re_search]. destruct (decide (vowel c)) as [Hc|Hc].
    + destruct (re_match_vocab_some c s Hc) as [[g r] E]. rewrite E.
      pose proof E as [E' _]%re_match_spec.
      split_and!; [by rewrite app_empty_l|constructor|by rewrite <- E'].
    + rewrite (re_match_vocab_none c s Hc).
      destruct (re_search re_vocab s) as [[[pre g] post]|].
      * destruct IH as (-> & Hpre & Hm). rewrite app_String.
        split_and!; [done|by constructor|done].
      * by constructor.
Qed.

Lemma re_match_diphthong d g post rest :
  d ∈ diphthongs →
  re_match re_vocab (g +:+ post) = Some (g, post) →
  g +:+ post = d +:+ rest → g = d.
Proof.
  intros Hd Hm E. rewrite E in Hm.
  change diphthongs with ["ai"; "au"; "ei"; "oi"] in Hd.
  repeat (apply elem_of_cons in Hd as [->|Hd]);
    [..|by apply elem_of_nil in Hd];
    rewrite !app_String, app_empty_l in Hm; vm_compute in Hm; congruence.
Qed.

Lemma decompose_Some tok t :
  decompose tok = Some t →
  token t = tok ∧
  tok = onset t +:+ nucleus t +:+ coda t ∧
  Forall (λ c, ¬ vowel c) (chars (onset t)) ∧
  nucleus t ∈ vocabs ∧
  ∀ d rest, d ∈ diphthongs → nucleus t +:+ coda t = d +:+ rest → nucleus t = d.
Proof.
  unfold decompose. pose proof (re_search_vocab_spec tok) as H.
  destruct (re_search re_vocab tok) as [[[pre g] post]|]; [|done].
  destruct H as (Htok & Hpre & Hm). intros [= <-]. simpl.
  split_and!; [done|done|done| |].
  - apply re_match_spec in Hm as [_ Hg]. by rewrite graphemes_re_vocab in Hg.
  - intros d rest Hd E. by eapply re_match_diphthong.
Qed.

Lemma decompose_None tok :
  decompose tok = None ↔ Forall (λ c, ¬ vowel c) (chars tok).
Proof.
  split.
  - unfold decompose. pose proof (re_search_vocab_spec tok) as H.
    by destruct (re_search re_vocab tok) as [[[pre g] post]|].
  - intros Hall. destruct (decompose tok) as [t|] eqn:E; [|done]. exfalso.
    apply decompose_Some in E as (_ & Htok & _ & Hg & _).
    rewrite Htok, !chars_app, !Forall_app in Hall. destruct Hall as (_ & Hall & _).
    destruct (nucleus t) as [|c g]; [by apply vocabs_nonempty in Hg|].
    apply vocabs_head_vowel in Hg. by inversion Hall.
Qed.

(** C6.  [decompose] takes as nucleus the match of [re_vocab] at the first
    vowel letter of the token: no letter of the onset is a vowel, the
    nucleus is in the vowel table, and where the text at that position
    starts with a two-letter vowel the nucleus is that two-letter vowel.
    It gives nothing exactly when the token holds no vowel letter. *)
Theorem decompose_first_vowel (tok : string) :
  (∀ t, decompose tok = Some t →
     token t = tok ∧
     tok = onset t +:+ nucleus t +:+ coda t ∧
     Forall (λ c, ¬ vowel c) (chars (onset t)) ∧
     nucleus t ∈ vocabs ∧
     ∀ d rest, d ∈ diphthongs → nucleus t +:+ coda t = d +:+ rest → nucleus t = d) ∧
  (decompose tok = None ↔ Forall (λ c, ¬ vowel c) (chars tok)) ∧
  decompose "trak" =
    Some {| token := "trak"; nucleus := "a"; onset := "tr"; coda := "k" |} ∧
  decompose "xyz" = None.
Proof.
  split_and!; [apply decompose_Some|apply decompose_None|reflexivity|reflexivity].
Qed.

Lemma decompose_first_vowel_witness :
  decompose "trak" = Some (mkToken "trak" "a" "tr" "k") ∧
  Forall (λ c, ¬ vowel c) (chars "tr") ∧
  "a" ∈ vocabs.
Proof.
  pose proof (proj1 (decompose_first_vowel "trak") (mkToken "trak" "a" "tr" "k") eq_refl)
    as (_ & _ & Ho & Hn & _).
  split_and!; [reflexivity|exact Ho|exact Hn].
Defined.

(** The invariant of a decomposed token. *)
Definition token_inv (t : SyllableToken) : Prop :=
  onset t +:+ nucleus t +:+ coda t = token t ∧
  nucleus t ≠ "" ∧
  nucleus t ∈ vocabs.

Lemma decompose_inv tok t : decompose tok = Some t → token_inv t.
Proof.
  intros (Ht & Htok & _ & Hn & _)%decompose_Some.
  split_and!; [congruence| |done].
  intros E. rewrite E in Hn. by apply vocabs_nonempty in Hn.
Qed.

(** C7.  Whatever the parser returns for a word, every token that
    [parse_token] keeps satisfies [onset + nucleus + coda == token] with a
    nucleus that is non-empty and in the vowel table; the onset and the
    coda can both be empty, as for the token "a". *)
Theorem parse_token_invariant (parse : string → list string) (w : string) :
  Forall token_inv (tokens (parse_token parse w)) ∧
  decompose "a" = Some {| token := "a"; nucleus := "a"; onset := ""; coda := "" |}.
Proof.
  split; [|reflexivity].
  apply Forall_forall. intros t Ht. simpl in Ht.
  apply list_elem_of_omap in Ht as (tok & _ & Ht). by eapply decompose_inv.
Qed.

(** ** [count_syllables] *)

Lemma lookup_const_map {V} (l : list string) (v : V) (k : string) :
  (list_to_map ((λ c, (c, v)) <$> l) : gmap string V) !! k =
  if decide (k ∈ l) then Some v else None.
Proof.
  induction l as [|x l IH].
  - simpl. apply lookup_empty.
  - rewrite fmap_cons, list_to_map_cons.
    destruct (decide (x = k)) as [->|Hne].
    + rewrite lookup_insert_eq. rewrite decide_True; [done|]. apply elem_of_cons. by left.
    + rewrite lookup_insert_ne by done. rewrite IH.
      destruct (decide (k ∈ l)) as [Hin|Hin].
      * rewrite decide_True; [done|]. apply elem_of_cons. by right.
      * rewrite decide_False; [done|]. intros [?|?]%elem_of_cons; [congruence|done].
Qed.

Lemma kons_counters0_lookup l :
  kons_counters0 !! l = if decide (l ∈ cons) then Some (Kons.mk 0 0) else None.
Proof. apply lookup_const_map. Qed.

Lemma vocab_counters0_lookup l :
  vocab_counters0 !! l = if decide (l ∈ vocabs) then Some 0 else None.
Proof. apply lookup_const_map. Qed.

(** C8.  The counters start with every consonant of the table at
    [{onset: 0, coda: 0}] and every vowel of the table at [0], and hold no
    other key.  On the corpus ["ba"; "ban"], each word parsed as its own
    single token, the pass returns with "a" counted twice, "b" twice as
    onset, "n" once as coda, and every other letter as it started. *)
Theorem count_syllables_ba_ban (n : nat) (l : string) :
  (∃ c0, count_syllables n [] = Some c0 ∧
     kons c0 !! l = (if decide (l ∈ cons) then Some (Kons.mk 0 0) else None) ∧
     vocab c0 !! l = (if decide (l ∈ vocabs) then Some 0 else None)) ∧
  (∃ c, count_syllables (2 + n) (tokenize identity_parser ["ba"; "ban"]) = Some c ∧
     vocab c !! l =
       (if decide (l = "a") then Some 2
        else if decide (l ∈ vocabs) then Some 0 else None) ∧
     kons c !! l =
       (if decide (l = "b") then Some (Kons.mk 2 0)
        else if decide (l = "n") then Some (Kons.mk 0 1)
        else if decide (l ∈ cons) then Some (Kons.mk 0 0) else None)).
Proof.
  split.
  - eexists. split; [reflexivity|]. cbn [kons vocab].
    split; [apply kons_counters0_lookup|apply vocab_counters0_lookup].
  - exists (mkSyllCounter (<["a" := 2]> vocab_counters0)
              (<["n" := Kons.mk 0 1]> (<["b" := Kons.mk 2 0]> kons_counters0))).
    split_and!.
    + vm_compute. reflexivity.
    + cbn [vocab]. rewrite lookup_insert. case_decide; [by subst; rewrite decide_True|].
      rewrite decide_False by done. apply vocab_counters0_lookup.
    + cbn [kons]. rewrite !lookup_insert. rewrite kons_counters0_lookup.
      repeat case_decide; subst; try done.
Qed.

(** *** A failing token *)

(** [bumps sl chs kc]: the counters [kc] with slot [sl] of each letter of
    [chs] increased by one, in turn. *)
Definition bumps (sl : slot) (chs : list string) (kc : gmap string Kons.t)
    : gmap string Kons.t :=
  foldl (λ m ch, alter (hit sl) ch m) kc chs.

Definition kons_le (k k' : Kons.t) : Prop :=
  Kons.onset k ≤ Kons.onset k' ∧ Kons.coda k ≤ Kons.coda k'.

Lemma insert_hit sl ch k (kc : gmap string Kons.t) :
  kc !! ch = Some k → <[ch := hit sl k]> kc = alter (hit sl) ch kc.
Proof.
  intros H. apply map_eq. intros j.
  rewrite lookup_insert, lookup_alter. case_decide; [|done]. by rewrite H.
Qed.

Lemma bumps_cons sl ch chs kc :
  bumps sl (ch :: chs) kc = bumps sl chs (alter (hit sl) ch kc).
Proof. reflexivity. Qed.

Lemma bumps_app sl xs ys kc : bumps sl (xs ++ ys) kc = bumps sl ys (bumps sl xs kc).
Proof. apply foldl_app. Qed.

Lemma bumps_None sl chs (kc : gmap string Kons.t) l :
  kc !! l = None → bumps sl chs kc !! l = None.
Proof.
  revert kc. induction chs as [|ch chs IH]; intros kc H; [done|].
  rewrite bumps_cons. apply IH. by apply lookup_alter_None.
Qed.

Lemma bumps_le sl chs (kc : gmap string Kons.t) l k :
  kc !! l = Some k → ∃ k', bumps sl chs kc !! l = Some k' ∧ kons_le k k'.
Proof.
  revert kc k. induction chs as [|ch chs IH]; intros kc k H.
  - exists k. unfold kons_le. split_and!; [done|lia|lia].
  - rewrite bumps_cons.
    destruct (IH (alter (hit sl) ch kc) (if decide (ch = l) then hit sl k else k))
      as (k' & Hk' & Hle).
    { rewrite lookup_alter. case_decide; [subst ch|done]. by rewrite H. }
    exists k'. split; [done|]. revert Hle. unfold kons_le.
    case_decide; [|done]. destruct sl; simpl; lia.
Qed.

(** The loop over the units of an onset or a coda counts the units that
    come before the first one that is no key of the counters, and no
    other. *)
Lemma hit_units_spec sl us (kc : gmap string Kons.t) :
  match hit_units sl us kc with
  | Done kc' => kc' = bumps sl us.*1 kc
  | Raised e kc' =>
      ∃ done ch rest,
        us.*1 = done ++ ch :: rest ∧ e = KeyError ch ∧
        kc !! ch = None ∧ kc' = bumps sl done kc
  end.
Proof.
  revert kc. induction us as [|[ch tg] us IH]; intros kc; [done|].
  cbn [hit_units]. destruct (kc !! ch) as [k|] eqn:E.
  - rewrite (insert_hit _ _ _ _ E). specialize (IH (alter (hit sl) ch kc)).
    destruct (hit_units sl us (alter (hit sl) ch kc)) as [kc'|e kc']; [done|].
    destruct IH as (done & ch' & rest & Hus & -> & Hch & ->).
    exists (ch :: done), ch', rest. split_and!; [by rewrite fmap_cons, Hus|done| |done].
    by apply lookup_alter_None in Hch.
  - by exists [], ch, us.*1.
Qed.

(** What a token that raised has left behind. *)
Inductive partial_count (fuel : nat) (tok : SyllableToken)
    (kc kc' : gmap string Kons.t) (vc : gmap string Z) : Prop :=
  | failed_in_onset us done ch rest :
      split_char fuel (onset tok) = Some us →
      us.*1 = done ++ ch :: rest → kc !! ch = None →
      kc' = bumps at_onset done kc →
      partial_count fuel tok kc kc' vc
  | failed_in_coda us vs done ch rest :
      split_char fuel (onset tok) = Some us →
      split_char fuel (coda tok) = Some vs →
      vs.*1 = done ++ ch :: rest → kc !! ch = None →
      kc' = bumps at_coda done (bumps at_onset us.*1 kc) →
      partial_count fuel tok kc kc' vc
  | failed_at_nucleus us vs :
      split_char fuel (onset tok) = Some us →
      split_char fuel (coda tok) = Some vs →
      vc !! nucleus tok = None →
      kc' = bumps at_coda vs.*1 (bumps at_onset us.*1 kc) →
      partial_count fuel tok kc kc' vc.

Lemma partial_count_le fuel tok kc kc' vc l k :
  partial_count fuel tok kc kc' vc → kc !! l = Some k →
  ∃ k', kc' !! l = Some k' ∧ kons_le k k'.
Proof.
  assert (∀ sl1 sl2 xs ys, ∃ k',
    bumps sl2 ys (bumps sl1 xs kc) !! l = Some k' ∧ kons_le k k' ∨ kc !! l ≠ Some k) as H2.
  { intros sl1 sl2 xs ys. destruct (decide (kc !! l = Some k)) as [E|]; [|by exists k; right].
    destruct (bumps_le sl1 xs kc l k E) as (k1 & E1 & H1).
    destruct (bumps_le sl2 ys _ l k1 E1) as (k2 & E2 & H2).
    exists k2. left. split; [done|]. unfold kons_le in *. lia. }
  intros [us done ch rest _ _ _ ->|us vs done ch rest _ _ _ _ ->|us vs _ _ _ ->] E.
  - by apply bumps_le.
  - destruct (H2 at_onset at_coda us.*1 done) as (k' & [?|?]); [by exists k'|done].
  - destruct (H2 at_onset at_coda us.*1 vs.*1) as (k' & [?|?]); [by exists k'|done].
Qed.

(** C3, as the code has it.  When the body of the [try] raises for a
    token, the vowel counters are as before (the nucleus is not counted),
    the consonant counters hold the increments of the units that came
    before the failing one (they are not taken back), and no counter has
    decreased: what other tokens have counted is kept. *)
Theorem try_token_failure (fuel : nat) (tok : SyllableToken) (c c' : SyllCounter)
    (e : error) :
  try_token fuel tok c = Some (Raised e c') →
  vocab c' = vocab c ∧
  partial_count fuel tok (kons c) (kons c') (vocab c) ∧
  (∀ l k, kons c !! l = Some k → ∃ k', kons c' !! l = Some k' ∧ kons_le k k') ∧
  count_token fuel tok c = Some c'.
Proof.
  intros H.
  assert (vocab c' = vocab c ∧ partial_count fuel tok (kons c) (kons c') (vocab c)) as [Hv Hp].
  { revert H. unfold try_token.
    destruct (split_char fuel (onset tok)) as [us|] eqn:Eus; [|done]. cbn [mbind option_bind].
    pose proof (hit_units_spec at_onset us (kons c)) as H1.
    destruct (hit_units at_onset us (kons c)) as [k1|e1 k1]; cbn [with_kons].
    - subst k1.
      destruct (split_char fuel (coda tok)) as [vs|] eqn:Evs; [|done]. cbn [mbind option_bind kons vocab].
      pose proof (hit_units_spec at_coda vs (bumps at_onset us.*1 (kons c))) as H2.
      destruct (hit_units at_coda vs _) as [k2|e2 k2]; cbn [with_kons kons vocab].
      + subst k2. unfold hit_nucleus.
        destruct (vocab c !! nucleus tok) as [v|] eqn:En; cbn [with_vocab]; [done|].
        intros [= <- <-]. split; [done|]. by eapply failed_at_nucleus.
      + destruct H2 as (done & ch & rest & Hvs & -> & Hch & ->).
        intros [= <- <-]. split; [done|]. cbn [kons].
        eapply failed_in_coda; [done..| |done].
        destruct (kons c !! ch) as [k|] eqn:E; [|done].
        destruct (bumps_le at_onset us.*1 (kons c) ch k E) as (? & ? & _). congruence.
    - destruct H1 as (done & ch & rest & Hus & -> & Hch & ->).
      intros [= <- <-]. split; [done|]. by eapply failed_in_onset. }
  split_and!; [done|done| |].
  - intros l k Hk. eapply partial_count_le; [exact Hp|exact Hk].
  - unfold count_token. by rewrite H.
Qed.

Lemma try_token_failure_witness :
  try_token 3 (mkToken "bia" "i" "b" "a")
    (mkSyllCounter vocab_counters0 kons_counters0) =
    Some (Raised (KeyError "a")
            (mkSyllCounter vocab_counters0 (<["b" := Kons.mk 1 0]> kons_counters0))) ∧
  count_token 3 (mkToken "bia" "i" "b" "a")
    (mkSyllCounter vocab_counters0 kons_counters0) =
    Some (mkSyllCounter vocab_counters0 (<["b" := Kons.mk 1 0]> kons_counters0)).
Proof.
  assert (try_token 3 (mkToken "bia" "i" "b" "a")
            (mkSyllCounter vocab_counters0 kons_counters0) =
          Some (Raised (KeyError "a")
                  (mkSyllCounter vocab_counters0 (<["b" := Kons.mk 1 0]> kons_counters0))))
    as H by (vm_compute; reflexivity).
  split; [exact H|]. exact (proj2 (proj2 (proj2 (try_token_failure _ _ _ _ _ H)))).
Defined.

(** C3, as stated, fails: the token "bia" decomposes into onset "b",
    nucleus "i" and coda "a"; the onset is counted, then the coda unit "a"
    is no key of the consonant counters and the token is given up, with
    the onset count of "b" left at one. *)
Lemma count_token_not_atomic :
  decompose "bia" = Some (mkToken "bia" "i" "b" "a") ∧
  try_token 3 (mkToken "bia" "i" "b" "a")
    (mkSyllCounter vocab_counters0 kons_counters0) =
    Some (Raised (KeyError "a")
            (mkSyllCounter vocab_counters0 (<["b" := Kons.mk 1 0]> kons_counters0))) ∧
  kons_counters0 !! "b" = Some (Kons.mk 0 0) ∧
  (<["b" := Kons.mk 1 0]> kons_counters0 : gmap string Kons.t) !! "b" = Some (Kons.mk 1 0) ∧
  count_syllables 3 (tokenize identity_parser ["bia"]) =
    Some (mkSyllCounter vocab_counters0 (<["b" := Kons.mk 1 0]> kons_counters0)).
Proof. split_and!; vm_compute; reflexivity. Qed.

(** ** [count_in_map] *)

Section count_in_map.
Variable map : gmap string value.

(** The value fits the letter: an [int] for a vowel, a [dict] with the
    keys [coda] and [onset] for any other letter. *)
Definition fits (l : string) (v : value) : bool :=
  if is_vocal l then
    match v with VInt _ => true | _ => false end
  else
    match v with
    | VDict d => bool_decide (is_Some (d !! "coda")) && bool_decide (is_Some (d !! "onset"))
    | _ => false
    end.

(** The letter of the point is a key of the map, with a value that does
    not fit it. *)
Definition misfit (p : FDPoint.t) : bool :=
  match map !! FDPoint.letter p with
  | Some v => negb (fits (FDPoint.letter p) v)
  | None => false
  end.

Definition type_misfit (t : FDType.t) : bool :=
  existsb (λ kp, misfit kp.2) (FDType.points t).

Definition fd_misfit (fd : FD.t) : bool :=
  type_misfit (FD.plus fd) || type_misfit (FD.minus fd).

Lemma point_raised p : is_raised (FDPoint.count_in_map map p) = misfit p.
Proof.
  unfold FDPoint.count_in_map, misfit, fits.
  destruct (map !! FDPoint.letter p) as [v|]; [|done].
  destruct (is_vocal (FDPoint.letter p)); destruct v as [n|d|]; try done.
  destruct (d !! "coda") as [c|] eqn:Ec; [|done].
  destruct (d !! "onset") as [o|] eqn:Eo; [|done].
  simpl. by rewrite ?bool_decide_eq_true_2 by eauto.
Qed.

Lemma points_raised ps :
  is_raised (FDType.count_points map ps) = existsb (λ kp, misfit kp.2) ps.
Proof.
  induction ps as [|[k p] ps IH]; [done|].
  cbn [FDType.count_points existsb snd]. rewrite <- point_raised, <- IH.
  destruct (FDPoint.count_in_map map p); [|done].
  by destruct (FDType.count_points map ps).
Qed.

Lemma type_raised t : is_raised (FDType.count_in_map map t) = type_misfit t.
Proof.
  unfold FDType.count_in_map, type_misfit. rewrite <- points_raised.
  by destruct (FDType.count_points map (FDType.points t)).
Qed.

Lemma fd_raised fd : is_raised (FD.count_in_map map fd) = fd_misfit fd.
Proof.
  unfold FD.count_in_map, fd_misfit. rewrite <- !type_raised.
  destruct (FDType.count_in_map map (FD.plus fd)); [|done].
  by destruct (FDType.count_in_map map (FD.minus fd)).
Qed.

Lemma count_all_raised fds : is_raised (count_all map fds) = existsb fd_misfit fds.
Proof.
  induction fds as [|fd fds IH]; [done|].
  cbn [count_all existsb]. rewrite <- fd_raised, <- IH.
  destruct (FD.count_in_map map fd); [|done].
  by destruct (count_all map fds).
Qed.

(** *** Points whose letter is no key of the map *)

Definition absent (p : FDPoint.t) : Prop := map !! FDPoint.letter p = None.

Definition fd_points (fd : FD.t) : list FDPoint.t :=
  (FDType.points (FD.plus fd)).*2 ++ (FDType.points (FD.minus fd)).*2.

Lemma point_absent p : absent p → FDPoint.count_in_map map p = Done p.
Proof. unfold absent, FDPoint.count_in_map. by intros ->. Qed.

Lemma points_absent ps :
  Forall absent ps.*2 → FDType.count_points map ps = Done ps.
Proof.
  induction ps as [|[k p] ps IH]; [done|].
  rewrite fmap_cons. intros [Hp Hps]%Forall_cons.
  cbn [FDType.count_points]. rewrite (point_absent p Hp), IH; done.
Qed.

Lemma type_absent t :
  Forall absent (FDType.points t).*2 → FDType.count_in_map map t = Done t.
Proof.
  intros H. unfold FDType.count_in_map. rewrite points_absent by done. by destruct t.
Qed.

Lemma fd_absent fd : Forall absent (fd_points fd) → FD.count_in_map map fd = Done fd.
Proof.
  unfold fd_points. intros [Hp Hm]%Forall_app.
  unfold FD.count_in_map. rewrite !type_absent by done. by destruct fd.
Qed.

Lemma count_all_absent fds :
  Forall (λ fd, Forall absent (fd_points fd)) fds → count_all map fds = Done fds.
Proof.
  induction 1 as [|fd fds Hfd _ IH]; [done|].
  cbn [count_all]. by rewrite fd_absent, IH.
Qed.

(** *** A second application changes nothing *)

Lemma point_idem p p' :
  FDPoint.count_in_map map p = Done p' → FDPoint.count_in_map map p' = Done p'.
Proof.
  unfold FDPoint.count_in_map.
  destruct (map !! FDPoint.letter p) as [v|] eqn:E.
  - destruct (is_vocal (FDPoint.letter p)) eqn:Ev.
    + destruct v; try done. intros [= <-]. cbn [FDPoint.letter]. by rewrite E, Ev.
    + destruct v as [|d|]; try done.
      destruct (d !! "coda") eqn:Ec; [|done]. destruct (d !! "onset") eqn:Eo; [|done].
      intros [= <-]. cbn [FDPoint.letter]. by rewrite E, Ev, Ec, Eo.
  - intros [= <-]. by rewrite E.
Qed.

Lemma points_idem ps ps' :
  FDType.count_points map ps = Done ps' → FDType.count_points map ps' = Done ps'.
Proof.
  revert ps'. induction ps as [|[k p] ps IH]; intros ps'.
  - by intros [= <-].
  - cbn [FDType.count_points].
    destruct (FDPoint.count_in_map map p) as [p1|] eqn:Ep; [|done].
    destruct (FDType.count_points map ps) as [ps1|] eqn:Eps; [|done].
    intros [= <-]. cbn [FDType.count_points].
    by rewrite (point_idem _ _ Ep), (IH _ eq_refl).
Qed.

Lemma type_idem t t' :
  FDType.count_in_map map t = Done t' → FDType.count_in_map map t' = Done t'.
Proof.
  unfold FDType.count_in_map.
  destruct (FDType.count_points map (FDType.points t)) as [ps|] eqn:E; [|done].
  intros [= <-]. cbn [FDType.points FDType.ftype]. by rewrite (points_idem _ _ E).
Qed.

Lemma fd_idem fd fd' :
  FD.count_in_map map fd = Done fd' → FD.count_in_map map fd' = Done fd'.
Proof.
  unfold FD.count_in_map.
  destruct (FDType.count_in_map map (FD.plus fd)) as [p|] eqn:Ep; [|done].
  destruct (FDType.count_in_map map (FD.minus fd)) as [m|] eqn:Em; [|done].
  intros [= <-]. cbn [FD.plus FD.minus FD.name].
  by rewrite (type_idem _ _ Ep), (type_idem _ _ Em).
Qed.

Lemma count_all_idem fds fds' :
  count_all map fds = Done fds' → count_all map fds' = Done fds'.
Proof.
  revert fds'. induction fds as [|fd fds IH]; intros fds'.
  - by intros [= <-].
  - cbn [count_all].
    destruct (FD.count_in_map map fd) as [fd1|] eqn:Efd; [|done].
    destruct (count_all map fds) as [fds1|] eqn:Efds; [|done].
    intros [= <-]. cbn [count_all]. by rewrite (fd_idem _ _ Efd), (IH _ eq_refl).
Qed.

Lemma count_all_twice fds :
  andthen (count_all map fds) (count_all map) = count_all map fds.
Proof.
  destruct (count_all map fds) as [fds'|] eqn:E; [|done].
  simpl. by eapply count_all_idem.
Qed.
End count_in_map.

(** *** What an application leaves as it was *)

Definition point_frame (map : gmap string value) (p p' : FDPoint.t) : Prop :=
  FDPoint.letter p' = FDPoint.letter p ∧
  (map !! FDPoint.letter p = None → p' = p).

Definition type_frame (map : gmap string value) (t t' : FDType.t) : Prop :=
  FDType.ftype t' = FDType.ftype t ∧
  Forall2 (λ kp kp', kp'.1 = kp.1 ∧ point_frame map kp.2 kp'.2)
    (FDType.points t) (FDType.points t').

Definition fd_frame (map : gmap string value) (fd fd' : FD.t) : Prop :=
  FD.name fd' = FD.name fd ∧
  type_frame map (FD.plus fd) (FD.plus fd') ∧
  type_frame map (FD.minus fd) (FD.minus fd').

Section frame.
Variable map : gmap string value.

Lemma point_frame_refl p : point_frame map p p.
Proof. by split. Qed.

Lemma type_frame_refl t : type_frame map t t.
Proof.
  split; [done|]. apply Forall2_same_length_lookup. split; [done|].
  intros i x y Hx Hy. assert (x = y) as -> by congruence. split; [done|apply point_frame_refl].
Qed.

Lemma fd_frame_refl fd : fd_frame map fd fd.
Proof. split_and!; [done|apply type_frame_refl..]. Qed.

Lemma point_frame_count p : point_frame map p (state_of (FDPoint.count_in_map map p)).
Proof.
  unfold FDPoint.count_in_map, point_frame.
  destruct (map !! FDPoint.letter p) as [v|]; [|done].
  destruct (is_vocal (FDPoint.letter p)); destruct v as [n|d|]; try done.
  destruct (d !! "coda"); [|done]. by destruct (d !! "onset").
Qed.

Lemma points_frame_count ps :
  Forall2 (λ kp kp', kp'.1 = kp.1 ∧ point_frame map kp.2 kp'.2)
    ps (state_of (FDType.count_points map ps)).
Proof.
  induction ps as [|[k p] ps IH]; [constructor|].
  cbn [FDType.count_points]. pose proof (point_frame_count p) as Hp.
  destruct (FDPoint.count_in_map map p) as [p'|e p'].
  - destruct (FDType.count_points map ps); by constructor.
  - constructor; [done|]. apply Forall2_same_length_lookup. split; [done|].
    intros i x y Hx Hy. assert (x = y) as -> by congruence.
    split; [done|apply point_frame_refl].
Qed.

Lemma type_frame_count t : type_frame map t (state_of (FDType.count_in_map map t)).
Proof.
  unfold FDType.count_in_map. pose proof (points_frame_count (FDType.points t)) as H.
  by destruct (FDType.count_points map (FDType.points t)).
Qed.

Lemma fd_frame_count fd : fd_frame map fd (state_of (FD.count_in_map map fd)).
Proof.
  unfold FD.count_in_map.
  pose proof (type_frame_count (FD.plus fd)) as Hp.
  pose proof (type_frame_count (FD.minus fd)) as Hm.
  destruct (FDType.count_in_map map (FD.plus fd)).
  - by destruct (FDType.count_in_map map (FD.minus fd)).
  - split_and!; [done|done|apply type_frame_refl].
Qed.

Lemma count_all_frame fds : Forall2 (fd_frame map) fds (state_of (count_all map fds)).
Proof.
  induction fds as [|fd fds IH]; [constructor|].
  cbn [count_all]. pose proof (fd_frame_count fd) as Hfd.
  destruct (FD.count_in_map map fd) as [fd'|e fd'].
  - destruct (count_all map fds); by constructor.
  - constructor; [done|]. apply Forall2_same_length_lookup. split; [done|].
    intros i x y Hx Hy. assert (x = y) as -> by congruence. apply fd_frame_refl.
Qed.
End frame.

(** C4, as the code has it.  Applying the counts raises exactly when some
    point has a letter that is a key of the map with a value that does not
    fit it (no [int] for a vowel; for another letter no [dict], or one
    without [coda] or [onset]).  A point whose letter is no key of the
    map is passed over: features that share no letter with the map are
    returned as they were, without an error. *)
Theorem count_all_raises_iff (map : gmap string value) (fds : list FD.t) :
  (is_raised (count_all map fds) = true ↔
     ∃ fd p v, fd ∈ fds ∧ p ∈ fd_points fd ∧
       map !! FDPoint.letter p = Some v ∧ fits (FDPoint.letter p) v = false) ∧
  (Forall (λ fd, Forall (absent map) (fd_points fd)) fds → count_all map fds = Done fds).
Proof.
  split; [|apply count_all_absent].
  assert (∀ t, type_misfit map t = true ↔
    ∃ p v, p ∈ (FDType.points t).*2 ∧
      map !! FDPoint.letter p = Some v ∧ fits (FDPoint.letter p) v = false) as Ht.
  { intros t. unfold type_misfit. rewrite existsb_exists. split.
    - intros ([k p] & Hin%list_elem_of_In & Hm). unfold misfit in Hm. simpl in Hm.
      destruct (map !! FDPoint.letter p) as [v|] eqn:E; [|done].
      exists p, v. split_and!; [|done|by apply negb_true_iff].
      apply list_elem_of_fmap. by exists (k, p).
    - intros (p & v & ([k p'] & -> & Hin)%list_elem_of_fmap & E & Hf).
      exists (k, p'). split; [by apply list_elem_of_In|].
      unfold misfit. simpl in *. rewrite E. by apply negb_true_iff. }
  rewrite count_all_raised, existsb_exists. split.
  - intros (fd & Hin%list_elem_of_In & [H|H]%orb_true_iff); apply Ht in H as (p & v & Hp & Hv);
      exists fd, p, v; (split_and!; [done| |apply Hv..]); unfold fd_points; apply elem_of_app; auto.
  - intros (fd & p & v & Hin & [Hp|Hp]%elem_of_app & E & Hf);
      exists fd; (split; [by apply list_elem_of_In|]); apply orb_true_iff;
      [left|right]; apply Ht; eauto.
Qed.

Lemma count_all_raises_iff_witness :
  Forall (λ fd, Forall (absent (vocab_values vocab_counters0)) (fd_points fd))
    (load_fitures_spec ["voice"] ["b +"; "p -"]) ∧
  count_all (vocab_values vocab_counters0) (load_fitures_spec ["voice"] ["b +"; "p -"]) =
    Done (load_fitures_spec ["voice"] ["b +"; "p -"]).
Proof.
  assert (Forall (λ fd, Forall (absent (vocab_values vocab_counters0)) (fd_points fd))
            (load_fitures_spec ["voice"] ["b +"; "p -"])) as H.
  { unfold absent. apply (bool_decide_unpack _). vm_compute. exact I. }
  split; [exact H|]. exact (proj2 (count_all_raises_iff _ _) H).
Defined.

(** C4, as stated, fails.  The consonant feature "voice" (letters "b" and
    "p") applied against the vowel counts of the corpus ["ba"; "ban"], and
    the vowel feature "high" (letters "i" and "a") applied against its
    consonant counts, both return without an error, every count still
    zero although "b" was counted twice and "a" twice. *)
Lemma count_all_wrong_shape_silent :
  count_syllables 3 (tokenize identity_parser ["ba"; "ban"]) =
    Some (mkSyllCounter (<["a" := 2]> vocab_counters0)
            (<["n" := Kons.mk 0 1]> (<["b" := Kons.mk 2 0]> kons_counters0))) ∧
  load_fitures_spec ["voice"] ["b +"; "p -"] =
    [ FD.mk "voice" (FDType.mk "plus" [("b", FDPoint.mk "b" 0 0 0)])
        (FDType.mk "minus" [("p", FDPoint.mk "p" 0 0 0)]) ] ∧
  is_vocal "b" = false ∧ is_vocal "p" = false ∧
  count_all (vocab_values (<["a" := 2]> vocab_counters0))
    (load_fitures_spec ["voice"] ["b +"; "p -"]) =
    Done (load_fitures_spec ["voice"] ["b +"; "p -"]) ∧
  load_fitures_spec ["high"] ["i +"; "a -"] =
    [ FD.mk "high" (FDType.mk "plus" [("i", FDPoint.mk "i" 0 0 0)])
        (FDType.mk "minus" [("a", FDPoint.mk "a" 0 0 0)]) ] ∧
  is_vocal "i" = true ∧ is_vocal "a" = true ∧
  count_all (kons_values (<["n" := Kons.mk 0 1]> (<["b" := Kons.mk 2 0]> kons_counters0)))
    (load_fitures_spec ["high"] ["i +"; "a -"]) =
    Done (load_fitures_spec ["high"] ["i +"; "a -"]).
Proof. split_and!; vm_compute; reflexivity. Qed.

(** ** Aggregation *)

(** [times] runs of the loop [for fd in fiturs: fd.count_in_map(map)]
    over the same features, stopped by the first exception. *)
Definition aggregate (times : nat) (map : gmap string value) (fds : list FD.t)
    : outcome (list FD.t) :=
  Nat.iter times (λ r, andthen r (count_all map)) (Done fds).

(** The documents of a run; a run that raised has none. *)
Definition output (tg : string) (r : outcome (list FD.t))
    : option (list (FD.doc * string)) :=
  match r with
  | Done fds => Some (documents tg fds)
  | Raised _ _ => None
  end.

(** C9.  Applying the counts twice to the loaded features gives the
    features, and so the documents, that applying them once gives: a count
    is assigned from the map, not added to. *)
Theorem aggregation_idempotent (fiturs lines : list string)
    (map : gmap string value) (tg : string) :
  aggregate 2 map (load_fitures_spec fiturs lines) =
    aggregate 1 map (load_fitures_spec fiturs lines) ∧
  output tg (aggregate 2 map (load_fitures_spec fiturs lines)) =
    output tg (aggregate 1 map (load_fitures_spec fiturs lines)).
Proof.
  assert (aggregate 2 map (load_fitures_spec fiturs lines) =
          aggregate 1 map (load_fitures_spec fiturs lines)) as H.
  { unfold aggregate. cbn [Nat.iter nat_rect andthen]. apply count_all_twice. }
  split; [done|]. by rewrite H.
Qed.

(** C10.  Whether it returns or raises, an application keeps the name of
    every feature, the type, the keys and their order of both groups and
    the letter of every point, and it keeps whole every point whose letter
    is no key of the map; such a point raises nothing. *)
Theorem count_in_map_frame (map : gmap string value) (fds : list FD.t) :
  Forall2 (fd_frame map) fds (state_of (count_all map fds)) ∧
  (∀ p, map !! FDPoint.letter p = None → FDPoint.count_in_map map p = Done p).
Proof. split; [apply count_all_frame|apply point_absent]. Qed.

Lemma count_in_map_frame_witness :
  vocab_values vocab_counters0 !! FDPoint.letter (FDPoint.mk "b" 0 0 0) = None ∧
  FDPoint.count_in_map (vocab_values vocab_counters0) (FDPoint.mk "b" 0 0 0) =
    Done (FDPoint.mk "b" 0 0 0).
Proof.
  assert (vocab_values vocab_counters0 !! FDPoint.letter (FDPoint.mk "b" 0 0 0) = None) as H
    by (vm_compute; reflexivity).
  split; [exact H|]. exact (proj2 (count_in_map_frame _ []) _ H).
Defined.

(** * Further properties of the module *)

(** ** [split_char] on any input *)

(** A pair of the result holds a string its pattern can match. *)
Definition unit_matched (u : string * tag) : Prop :=
  match u.2 with
  | konsonan => u.1 ∈ graphemes gab_kons
  | vocal => u.1 ∈ graphemes v_pattern
  end.

Lemma unit_matched_ok u : unit_matched u → unit_ok u.
Proof.
  destruct u as [g [|]]; unfold unit_matched, unit_ok; cbn [fst snd]; intros H.
  - apply class_of_cons. exact H.
  - by apply class_of_v_pattern.
Qed.

Lemma for_patterns_matched w r w' r' :
  for_patterns patterns w r = (w', r') →
  ∃ us, r' = r ++ us ∧ w = join us.*1 +:+ w' ∧ Forall unit_matched us.
Proof.
  unfold patterns. cbn [for_patterns].
  destruct (re_match gab_kons w) as [[g1 w1]|] eqn:E1.
  - apply re_match_spec in E1 as [-> Hg1].
    destruct (re_match v_pattern w1) as [[g2 w2]|] eqn:E2.
    + apply re_match_spec in E2 as [-> Hg2].
      intros [= <- <-]. exists [(g1, konsonan); (g2, vocal)].
      rewrite <- (assoc_L (++)). simpl. rewrite app_empty_r, app_assoc_s.
      split_and!; [done|done|]. repeat (apply Forall_cons; split; [assumption|]). constructor.
    + intros [= <- <-]. exists [(g1, konsonan)]. simpl. rewrite app_empty_r.
      split_and!; [done|done|]. repeat (apply Forall_cons; split; [assumption|]). constructor.
  - destruct (re_match v_pattern w) as [[g2 w2]|] eqn:E2.
    + apply re_match_spec in E2 as [-> Hg2].
      intros [= <- <-]. exists [(g2, vocal)]. simpl. rewrite app_empty_r.
      split_and!; [done|done|]. repeat (apply Forall_cons; split; [assumption|]). constructor.
    + intros [= <- <-]. exists []. by rewrite app_nil_r.
Qed.

Lemma while_word_sound fuel w r res :
  while_word fuel w r = Some res →
  ∃ us, res = r ++ us ∧ join us.*1 = w ∧ Forall unit_matched us.
Proof.
  revert w r. induction fuel as [|fuel IH]; intros w r; [done|].
  cbn [while_word]. case_decide as Hemp.
  { intros [= <-]. subst. exists []. by rewrite app_nil_r. }
  destruct (for_patterns patterns w r) as [w' r'] eqn:E.
  apply for_patterns_matched in E as (us & -> & -> & Hus).
  intros (vs & -> & <- & Hvs)%IH. exists (us ++ vs).
  rewrite (assoc_L (++)), fmap_app, join_app. split_and!; [done|done|by apply Forall_app].
Qed.

(** X1.  Whenever [split_char] returns, on whatever string, the substrings
    of its pairs concatenate to the string, each pair has the class its
    substring has by the tables, a vowel pair is always one of the five
    single vowels (never a diphthong of the table), and the string holds
    letters of the tables only. *)
Theorem split_char_sound (fuel : nat) (s : string) (units : list (string * tag)) :
  split_char fuel s = Some units →
  join units.*1 = s ∧
  Forall (λ u, class_of u.1 = Some u.2) units ∧
  Forall (λ u, u.2 = vocal → u.1 ∈ ["a"; "i"; "u"; "e"; "o"]) units ∧
  Forall in_tables (chars s).
Proof.
  intros (us & -> & Hj & Hus)%while_word_sound. simpl.
  split_and!; [done| | |].
  - eapply Forall_impl; [exact Hus|]. apply unit_matched_ok.
  - eapply Forall_impl; [exact Hus|]. intros [g tg] Hu E. simpl in E. subst tg. exact Hu.
  - rewrite <- Hj. apply join_units_letters.
    eapply Forall_impl; [exact Hus|]. apply unit_matched_ok.
Qed.

Lemma split_char_sound_witness :
  split_char 9 "nyanyi" =
    Some [("ny", konsonan); ("a", vocal); ("ny", konsonan); ("i", vocal)] ∧
  Forall in_tables (chars "nyanyi").
Proof.
  pose proof (split_char_sound 9 "nyanyi" _ eq_refl) as (_ & _ & _ & H).
  split; [reflexivity|exact H].
Defined.

(** X2.  [split_char] returns, given iterations enough, exactly on the
    strings that hold letters of the tables only; the empty string is one
    of them. *)
Theorem split_char_returns_iff (s : string) :
  (∃ fuel units, split_char fuel s = Some units) ↔ Forall in_tables (chars s).
Proof.
  split.
  - intros (fuel & units & H). by apply split_char_sound in H as (_ & _ & _ & ?).
  - intros Hs.
    destruct (while_word_letters (S (String.length s)) s [] Hs) as (us & H & _); [lia|].
    by exists (S (String.length s)), us.
Qed.

Lemma split_char_returns_iff_witness :
  Forall in_tables (chars "") ∧ ∃ fuel units, split_char fuel "" = Some units.
Proof.
  assert (Forall in_tables (chars "")) as H by constructor.
  split; [exact H|]. exact (proj2 (split_char_returns_iff "") H).
Defined.

(** ** [split_char] as a scan, one grapheme at a time *)

(** The two letters are one of the consonant digraphs "kh", "ng", "ny",
    "sy". *)
Definition digraph (a b : ascii) : bool :=
  existsb (λ g, String.eqb g (String a (String b ""))) ["kh"; "ng"; "ny"; "sy"].

(** Left to right: a single vowel, else a consonant digraph, else a single
    letter as a consonant. *)
Fixpoint scan (s : string) : list (string * tag) :=
  match s with
  | EmptyString => []
  | String a s1 =>
      if in_class a "aiueo" then (String a "", vocal) :: scan s1
      else
        match s1 with
        | String b s2 =>
            if digraph a b then (String a (String b ""), konsonan) :: scan s2
            else (String a "", konsonan) :: scan s1
        | EmptyString => [(String a "", konsonan)]
        end
  end.

Lemma re_match_v_pattern a s :
  re_match v_pattern (String a s) =
  if in_class a "aiueo" then Some (String a "", s) else None.
Proof.
  unfold v_pattern. cbn [re_match alt_match]. by destruct (in_class a "aiueo").
Qed.

Lemma re_match_gab_kons_vowel a s :
  in_class a "aiueo" = true → re_match gab_kons (String a s) = None.
Proof.
  intros H%in_class_singles. unfold singles in H. simpl in H.
  repeat (apply elem_of_cons in H as [[= ->]|H]); [reflexivity..|].
  by apply elem_of_nil in H.
Qed.

Lemma re_match_gab_kons_last a :
  in_class a "bcdfghjklmnpqrstvwxyz" = true →
  re_match gab_kons (String a "") = Some (String a "", "").
Proof.
  intros H%in_class_singles. unfold singles in H. simpl in H.
  repeat (apply elem_of_cons in H as [[= ->]|H]); [reflexivity..|].
  by apply elem_of_nil in H.
Qed.

Lemma re_match_gab_kons_pair a b s :
  in_class a "bcdfghjklmnpqrstvwxyz" = true →
  re_match gab_kons (String a (String b s)) =
  if digraph a b then Some (String a (String b ""), s)
  else Some (String a "", String b s).
Proof.
  intros H%in_class_singles. unfold singles in H. simpl in H.
  repeat (apply elem_of_cons in H as [[= ->]|H]);
    [try reflexivity; destruct b as [[] [] [] [] [] [] [] []]; reflexivity..|].
  by apply elem_of_nil in H.
Qed.

(** The second pattern of the [for] loop, tried on what the first left. *)
Lemma v_step_scan s r :
  ∃ us w',
    match re_match v_pattern s with
    | Some (g, rest) => (rest, r ++ [(g, vocal)])
    | None => (s, r)
    end = (w', r ++ us) ∧
    scan s = us ++ scan w' ∧
    (String.length w' ≤ String.length s)%nat.
Proof.
  destruct s as [|a s].
  - exists [], "". rewrite app_nil_r. split_and!; [reflexivity|reflexivity|simpl; lia].
  - rewrite re_match_v_pattern. destruct (in_class a "aiueo") eqn:Ev.
    + exists [(String a "", vocal)], s. cbn [scan]. rewrite Ev.
      split_and!; [done|done|simpl; lia].
    + exists [], (String a s). rewrite app_nil_r. split_and!; [done|done|lia].
Qed.

(** One run of the [for] loop takes the next one or two units of the
    scan. *)
Lemma for_patterns_scan a s r :
  in_tables a →
  ∃ us w',
    for_patterns patterns (String a s) r = (w', r ++ us) ∧
    scan (String a s) = us ++ scan w' ∧
    (String.length w' < String.length (String a s))%nat.
Proof.
  intros Ha. apply (bool_decide_eq_true_2 _) in Ha. rewrite in_tables_class in Ha.
  unfold patterns. cbn [for_patterns].
  destruct (in_class a "aiueo") eqn:Ev.
  - rewrite (re_match_gab_kons_vowel a s Ev), re_match_v_pattern, Ev.
    exists [(String a "", vocal)], s. cbn [scan for_patterns]. rewrite Ev.
    split_and!; [done|done|simpl; lia].
  - rewrite orb_false_r in Ha. cbn [scan]. rewrite Ev.
    destruct s as [|b s].
    + rewrite (re_match_gab_kons_last a Ha).
      exists [(String a "", konsonan)], "". split_and!; [done|done|simpl; lia].
    + rewrite (re_match_gab_kons_pair a b s Ha). destruct (digraph a b).
      * destruct (v_step_scan s (r ++ [(String a (String b ""), konsonan)]))
          as (us & w' & E & Hs & Hl).
        exists ((String a (String b ""), konsonan) :: us), w'.
        rewrite E, Hs. rewrite <- (assoc_L (++)). split_and!; [done|done|simpl; lia].
      * destruct (v_step_scan (String b s) (r ++ [(String a "", konsonan)]))
          as (us & w' & E & Hs & Hl).
        exists ((String a "", konsonan) :: us), w'.
        rewrite E, Hs. rewrite <- (assoc_L (++)). split_and!; [done|done|simpl in *; lia].
Qed.

Lemma while_word_scan fuel w r :
  Forall in_tables (chars w) →
  (String.length w < fuel)%nat →
  while_word fuel w r = Some (r ++ scan w).
Proof.
  revert w r. induction fuel as [|fuel IH]; intros w r Hw Hlen; [lia|].
  cbn [while_word]. case_decide as Hemp.
  { subst. by rewrite app_nil_r. }
  destruct w as [|a s]; [done|].
  destruct (for_patterns_scan a s r) as (us & w' & E & Hs & Hl); [by inversion Hw|].
  rewrite E. pose proof E as (us' & _ & Ew & _)%for_patterns_spec.
  rewrite IH.
  - by rewrite Hs, (assoc_L (++)).
  - rewrite Ew, chars_app in Hw. by apply Forall_app in Hw as [_ ?].
  - lia.
Qed.

(** X3.  On a string of letters of the tables, [split_char] returns what a
    plain left-to-right scan gives that takes one grapheme at a time (a
    single vowel; else a consonant digraph; else a single consonant): that
    one run of the [for] loop may take a consonant and then a vowel does
    not change the result. *)
Theorem split_char_scan (fuel : nat) (s : string) :
  Forall in_tables (chars s) →
  (String.length s < fuel)%nat →
  split_char fuel s = Some (scan s).
Proof. intros Hs Hfuel. by apply (while_word_scan fuel s []). Qed.

Lemma split_char_scan_witness :
  Forall in_tables (chars "khusyuk") ∧
  split_char 8 "khusyuk" = Some (scan "khusyuk") ∧
  scan "khusyuk" =
    [("kh", konsonan); ("u", vocal); ("sy", konsonan); ("u", vocal); ("k", konsonan)].
Proof.
  assert (Forall in_tables (chars "khusyuk")) as H.
  { apply (bool_decide_unpack _). vm_compute. exact I. }
  split_and!; [exact H| |reflexivity].
  apply (split_char_scan 8 "khusyuk" H). simpl. lia.
Defined.

(** ** [parse_token] and [tokenize]: what is kept *)

Definition has_vowel (p : string) : Prop := Exists vowel (chars p).

Global Instance has_vowel_dec p : Decision (has_vowel p).
Proof. unfold has_vowel. apply _. Defined.

Lemma decompose_has_vowel p :
  match decompose p with
  | Some t => token t = p ∧ has_vowel p
  | None => ¬ has_vowel p
  end.
Proof.
  destruct (decompose p) as [t|] eqn:E.
  - split; [by apply decompose_Some in E as (? & _)|].
    destruct (decide (has_vowel p)) as [|Hn]; [done|].
    apply not_Exists_Forall in Hn; [|apply _].
    apply decompose_None in Hn. congruence.
  - apply decompose_None in E. by apply Forall_not_Exists.
Qed.

Lemma omap_decompose_tokens (ps : list string) :
  token <$> omap decompose ps = filter has_vowel ps.
Proof.
  induction ps as [|p ps IH]; [done|].
  cbn [omap list_omap]. pose proof (decompose_has_vowel p) as H.
  destruct (decompose p) as [t|].
  - destruct H as [<- Hv]. rewrite filter_cons_True by done.
    rewrite fmap_cons. f_equal. exact IH.
  - rewrite filter_cons_False by done. exact IH.
Qed.

(** X4.  [tokenize] gives one entry per word of the database, in order and
    under the word itself, also for a word of which no token is kept; the
    tokens of an entry are, in order, the strings the parser returned for
    the word that hold a vowel letter, a string without one being dropped
    in silence. *)
Theorem tokenize_keeps (parse : string → list string) (database : list string) :
  word <$> tokenize parse database = database ∧
  Forall (λ d, token <$> tokens d = filter has_vowel (parse (word d)))
    (tokenize parse database).
Proof.
  unfold tokenize. split.
  - induction database as [|w db IH]; [done|].
    cbn [map]. rewrite fmap_cons. f_equal. exact IH.
  - apply Forall_forall. intros d (w & -> & _)%list_elem_of_fmap.
    apply omap_decompose_tokens.
Qed.

(** ** [count_syllables]: what a token counts *)

(** How often the letter occurs among the units. *)
Definition occ (l : string) (chs : list string) : Z :=
  Z.of_nat (length (filter (λ x, x = l) chs)).

Definition add_hits (sl : slot) (n : Z) (k : Kons.t) : Kons.t :=
  match sl with
  | at_onset => Kons.mk (Kons.onset k + n) (Kons.coda k)
  | at_coda => Kons.mk (Kons.onset k) (Kons.coda k + n)
  end.

Lemma bumps_lookup sl chs (kc : gmap string Kons.t) l :
  bumps sl chs kc !! l = add_hits sl (occ l chs) <$> kc !! l.
Proof.
  revert kc. induction chs as [|ch chs IH]; intros kc.
  - unfold occ. simpl. destruct (kc !! l) as [[o c]|]; [|done].
    simpl. f_equal. destruct sl; simpl; f_equal; lia.
  - rewrite bumps_cons, IH, lookup_alter. unfold occ.
    destruct (decide (ch = l)) as [->|Hne].
    + rewrite filter_cons_True by done. destruct (kc !! l) as [[o c]|]; [|done].
      simpl. f_equal. destruct sl; simpl; f_equal; lia.
    + by rewrite filter_cons_False by done.
Qed.

Lemma occ_nonneg l chs : 0 ≤ occ l chs.
Proof. unfold occ. lia. Qed.

(** X5.  When the body of the [try] runs to its end for a token, both
    calls of [split_char] have returned, the nucleus was a key of the
    vowel counters and is counted once more, and every consonant has its
    onset count increased by the number of its occurrences among the onset
    units and its coda count by the number among the coda units; no key is
    added. *)
Theorem try_token_done (fuel : nat) (tok : SyllableToken) (c c' : SyllCounter) :
  try_token fuel tok c = Some (Done c') →
  ∃ us vs v,
    split_char fuel (onset tok) = Some us ∧
    split_char fuel (coda tok) = Some vs ∧
    vocab c !! nucleus tok = Some v ∧
    vocab c' = <[nucleus tok := v + 1]> (vocab c) ∧
    ∀ l, kons c' !! l =
         (λ k, Kons.mk (Kons.onset k + occ l us.*1) (Kons.coda k + occ l vs.*1))
           <$> kons c !! l.
Proof.
  unfold try_token.
  destruct (split_char fuel (onset tok)) as [us|] eqn:Eus; [|done]. cbn [mbind option_bind].
  pose proof (hit_units_spec at_onset us (kons c)) as H1.
  destruct (hit_units at_onset us (kons c)) as [k1|e1 k1]; cbn [with_kons]; [|done].
  subst k1.
  destruct (split_char fuel (coda tok)) as [vs|] eqn:Evs; [|done]. cbn [mbind option_bind kons vocab].
  pose proof (hit_units_spec at_coda vs (bumps at_onset us.*1 (kons c))) as H2.
  destruct (hit_units at_coda vs _) as [k2|e2 k2]; cbn [with_kons kons vocab]; [|done].
  subst k2. unfold hit_nucleus.
  destruct (vocab c !! nucleus tok) as [v|] eqn:En; cbn [with_vocab]; [|done].
  intros [= <-]. exists us, vs, v. cbn [kons vocab]. split_and!; [done..|].
  intros l. rewrite !bumps_lookup. destruct (kons c !! l) as [[o cd]|]; done.
Qed.

Lemma try_token_done_witness :
  try_token 3 (mkToken "ban" "a" "b" "n") (mkSyllCounter vocab_counters0 kons_counters0) =
    Some (Done (mkSyllCounter (<["a" := 1]> vocab_counters0)
                  (<["n" := Kons.mk 0 1]> (<["b" := Kons.mk 1 0]> kons_counters0)))) ∧
  ∃ us vs v,
    split_char 3 "b" = Some us ∧ split_char 3 "n" = Some vs ∧
    vocab_counters0 !! "a" = Some v.
Proof.
  assert (try_token 3 (mkToken "ban" "a" "b" "n")
            (mkSyllCounter vocab_counters0 kons_counters0) =
          Some (Done (mkSyllCounter (<["a" := 1]> vocab_counters0)
                  (<["n" := Kons.mk 0 1]> (<["b" := Kons.mk 1 0]> kons_counters0)))))
    as H by (vm_compute; reflexivity).
  split; [exact H|].
  destruct (try_token_done _ _ _ _ H) as (us & vs & v & Hus & Hvs & Hv & _).
  by exists us, vs, v.
Defined.

(** ** [count_syllables]: a token acts by its keys alone *)

(** The units that get counted, up to the first one that is no key, and
    whether all of them are keys. *)
Fixpoint tracked_prefix (K : gset string) (chs : list string) : list string * bool :=
  match chs with
  | [] => ([], true)
  | ch :: chs' =>
      if decide (ch ∈ K)
      then (ch :: (tracked_prefix K chs').1, (tracked_prefix K chs').2)
      else ([], false)
  end.

(** What a token adds: the onset units and the coda units it counts and
    whether it counts its nucleus. *)
Record effect := mk_effect {
  e_onset : list string;
  e_coda : list string;
  e_nucleus : bool
}.

Definition token_effect (fuel : nat) (tok : SyllableToken) (K V : gset string)
    : option effect :=
  us ← split_char fuel (onset tok);
  if (tracked_prefix K us.*1).2 then
    vs ← split_char fuel (coda tok);
    Some (mk_effect (tracked_prefix K us.*1).1 (tracked_prefix K vs.*1).1
            ((tracked_prefix K vs.*1).2 && bool_decide (nucleus tok ∈ V)))
  else Some (mk_effect (tracked_prefix K us.*1).1 [] false).

Definition apply_effect (n : string) (e : effect) (c : SyllCounter) : SyllCounter :=
  mkSyllCounter
    (if e_nucleus e then alter (λ v, v + 1) n (vocab c) else vocab c)
    (bumps at_coda (e_coda e) (bumps at_onset (e_onset e) (kons c))).

Lemma dom_bumps sl chs (kc : gmap string Kons.t) : dom (bumps sl chs kc) = dom kc.
Proof.
  revert kc. induction chs as [|ch chs IH]; intros kc; [done|].
  by rewrite bumps_cons, IH, dom_alter_L.
Qed.

Lemma hit_units_prefix sl us (kc : gmap string Kons.t) :
  state_of (hit_units sl us kc) = bumps sl (tracked_prefix (dom kc) us.*1).1 kc ∧
  is_raised (hit_units sl us kc) = negb (tracked_prefix (dom kc) us.*1).2.
Proof.
  revert kc. induction us as [|[ch tg] us IH]; intros kc; [done|].
  rewrite fmap_cons. cbn [hit_units tracked_prefix fst].
  destruct (kc !! ch) as [k|] eqn:E.
  - rewrite decide_True by (apply elem_of_dom; eauto).
    rewrite (insert_hit _ _ _ _ E). cbn [fst snd]. rewrite bumps_cons.
    specialize (IH (alter (hit sl) ch kc)). by rewrite dom_alter_L in IH.
  - by rewrite decide_False by (by apply not_elem_of_dom).
Qed.

Lemma insert_succ n v (vc : gmap string Z) :
  vc !! n = Some v → <[n := v + 1]> vc = alter (λ v, v + 1) n vc.
Proof.
  intros H. apply map_eq. intros j.
  rewrite lookup_insert, lookup_alter. case_decide; [|done]. by rewrite H.
Qed.

Lemma count_token_effect fuel tok c :
  count_token fuel tok c =
  (λ e, apply_effect (nucleus tok) e c)
    <$> token_effect fuel tok (dom (kons c)) (dom (vocab c)).
Proof.
  unfold count_token, try_token, token_effect.
  destruct (split_char fuel (onset tok)) as [us|]; [|done]. cbn [mbind option_bind].
  destruct (hit_units_prefix at_onset us (kons c)) as [Hs1 Hr1].
  destruct (hit_units at_onset us (kons c)) as [k1|e1 k1];
    cbn [with_kons state_of is_raised] in *.
  - apply (f_equal negb) in Hr1. rewrite negb_involutive in Hr1. cbn in Hr1.
    rewrite <- Hr1. subst k1.
    destruct (split_char fuel (coda tok)) as [vs|]; [|done].
    cbn [mbind option_bind kons vocab fmap option_fmap option_map].
    destruct (hit_units_prefix at_coda vs
                (bumps at_onset (tracked_prefix (dom (kons c)) us.*1).1 (kons c)))
      as [Hs2 Hr2].
    rewrite dom_bumps in Hs2, Hr2.
    destruct (hit_units at_coda vs _) as [k2|e2 k2];
      cbn [with_kons state_of is_raised kons vocab] in *.
    + apply (f_equal negb) in Hr2. rewrite negb_involutive in Hr2. cbn in Hr2.
      rewrite <- Hr2. subst k2. unfold hit_nucleus, apply_effect. cbn [e_nucleus e_onset e_coda andb].
      destruct (vocab c !! nucleus tok) as [v|] eqn:En; cbn [with_vocab state_of kons vocab].
      * rewrite bool_decide_eq_true_2 by (apply elem_of_dom; eauto).
        by rewrite (insert_succ _ _ _ En).
      * by rewrite bool_decide_eq_false_2 by (by apply not_elem_of_dom).
    + apply (f_equal negb) in Hr2. rewrite negb_involutive in Hr2. cbn in Hr2.
      rewrite <- Hr2. subst k2. done.
  - apply (f_equal negb) in Hr1. rewrite negb_involutive in Hr1. cbn in Hr1.
    rewrite <- Hr1. subst k1. done.
Qed.

Lemma apply_effect_dom n e c :
  dom (kons (apply_effect n e c)) = dom (kons c) ∧
  dom (vocab (apply_effect n e c)) = dom (vocab c).
Proof.
  unfold apply_effect. cbn [kons vocab]. rewrite !dom_bumps. split; [done|].
  destruct (e_nucleus e); [apply dom_alter_L|done].
Qed.

Lemma count_token_dom fuel tok c c' :
  count_token fuel tok c = Some c' →
  dom (kons c') = dom (kons c) ∧ dom (vocab c') = dom (vocab c).
Proof.
  rewrite count_token_effect.
  destruct (token_effect _ _ _ _) as [e|]; [|done].
  intros [= <-]. apply apply_effect_dom.
Qed.

(** ** [count_syllables]: keys, signs and order *)

Definition counts_nonneg (c : SyllCounter) : Prop :=
  (∀ l k, kons c !! l = Some k → 0 ≤ Kons.onset k ∧ 0 ≤ Kons.coda k) ∧
  (∀ l v, vocab c !! l = Some v → 0 ≤ v).

Lemma apply_effect_nonneg n e c : counts_nonneg c → counts_nonneg (apply_effect n e c).
Proof.
  intros [Hk Hv]. unfold apply_effect. split; cbn [kons vocab].
  - intros l k. rewrite !bumps_lookup.
    destruct (kons c !! l) as [k0|] eqn:E; [|done]. intros [= <-].
    apply Hk in E. pose proof (occ_nonneg l (e_onset e)). pose proof (occ_nonneg l (e_coda e)).
    simpl. lia.
  - intros l v. destruct (e_nucleus e); [|apply Hv].
    rewrite lookup_alter. case_decide; [subst l|apply Hv].
    destruct (vocab c !! n) as [v0|] eqn:E; [|done]. intros [= <-].
    apply Hv in E. lia.
Qed.

Lemma count_token_nonneg fuel tok c c' :
  count_token fuel tok c = Some c' → counts_nonneg c → counts_nonneg c'.
Proof.
  rewrite count_token_effect.
  destruct (token_effect _ _ _ _) as [e|]; [|done].
  intros [= <-]. apply apply_effect_nonneg.
Qed.

Lemma count_tokens_inv fuel toks c c' :
  count_tokens fuel toks c = Some c' →
  dom (kons c') = dom (kons c) ∧ dom (vocab c') = dom (vocab c) ∧
  (counts_nonneg c → counts_nonneg c').
Proof.
  revert c. induction toks as [|tok toks IH]; intros c.
  - by intros [= <-].
  - cbn [count_tokens]. destruct (count_token fuel tok c) as [c1|] eqn:E; [|done].
    cbn [mbind option_bind]. intros (Hk & Hv & Hn)%IH.
    destruct (count_token_dom _ _ _ _ E) as [Hk1 Hv1].
    split_and!; [congruence|congruence|].
    intros H. by eapply Hn, count_token_nonneg.
Qed.

Lemma count_words_inv fuel data c c' :
  count_words fuel data c = Some c' →
  dom (kons c') = dom (kons c) ∧ dom (vocab c') = dom (vocab c) ∧
  (counts_nonneg c → counts_nonneg c').
Proof.
  revert c. induction data as [|d data IH]; intros c.
  - by intros [= <-].
  - cbn [count_words]. destruct (count_tokens fuel (tokens d) c) as [c1|] eqn:E; [|done].
    cbn [mbind option_bind]. intros (Hk & Hv & Hn)%IH.
    apply count_tokens_inv in E as (Hk1 & Hv1 & Hn1).
    split_and!; [congruence|congruence|auto].
Qed.

Lemma is_Some_dom_eq {V} (m m0 : gmap string V) l :
  dom m = dom m0 → is_Some (m !! l) ↔ is_Some (m0 !! l).
Proof. intros H. by rewrite <- !elem_of_dom, H. Qed.

(** X6.  Whatever the tokens, the counters that [count_syllables] returns
    have the consonants of the table as their keys and the vowels of the
    table as the keys of the vowel counts, no more and no fewer, and no
    count is negative. *)
Theorem count_syllables_keys (fuel : nat) (data : list ParsedWord) (c : SyllCounter) :
  count_syllables fuel data = Some c →
  (∀ l, is_Some (kons c !! l) ↔ l ∈ cons) ∧
  (∀ l, is_Some (vocab c !! l) ↔ l ∈ vocabs) ∧
  (∀ l k, kons c !! l = Some k → 0 ≤ Kons.onset k ∧ 0 ≤ Kons.coda k) ∧
  (∀ l v, vocab c !! l = Some v → 0 ≤ v).
Proof.
  intros (Hk & Hv & Hn)%count_words_inv. cbn [kons vocab] in *.
  split_and!.
  - intros l. rewrite (is_Some_dom_eq _ _ l Hk), kons_counters0_lookup.
    case_decide; (split; [|by eauto]); [done|by intros [? ?]].
  - intros l. rewrite (is_Some_dom_eq _ _ l Hv), vocab_counters0_lookup.
    case_decide; (split; [|by eauto]); [done|by intros [? ?]].
  - apply Hn. split; cbn [kons vocab].
    + intros l k. rewrite kons_counters0_lookup. case_decide; [|done]. by intros [= <-].
    + intros l v. rewrite vocab_counters0_lookup. case_decide; [|done]. by intros [= <-].
  - apply Hn. split; cbn [kons vocab].
    + intros l k. rewrite kons_counters0_lookup. case_decide; [|done]. by intros [= <-].
    + intros l v. rewrite vocab_counters0_lookup. case_decide; [|done]. by intros [= <-].
Qed.

Lemma count_syllables_keys_witness :
  count_syllables 3 (tokenize identity_parser ["bia"; "1"]) =
    Some (mkSyllCounter vocab_counters0 (<["b" := Kons.mk 1 0]> kons_counters0)) ∧
  (is_Some ((<["b" := Kons.mk 1 0]> kons_counters0 : gmap string Kons.t) !! "ng") ↔
   "ng" ∈ cons).
Proof.
  assert (count_syllables 3 (tokenize identity_parser ["bia"; "1"]) =
    Some (mkSyllCounter vocab_counters0 (<["b" := Kons.mk 1 0]> kons_counters0))) as H
    by (vm_compute; reflexivity).
  split; [exact H|]. exact (proj1 (count_syllables_keys _ _ _ H) "ng").
Defined.

Lemma apply_effect_comm n1 e1 n2 e2 c :
  apply_effect n1 e1 (apply_effect n2 e2 c) = apply_effect n2 e2 (apply_effect n1 e1 c).
Proof.
  unfold apply_effect. cbn [kons vocab]. f_equal.
  - assert (∀ (m : gmap string Z),
      alter (λ v, v + 1) n1 (alter (λ v, v + 1) n2 m) =
      alter (λ v, v + 1) n2 (alter (λ v, v + 1) n1 m)) as Hc.
    { intros m. apply map_eq. intros j. rewrite !lookup_alter.
      repeat case_decide; subst; rewrite ?lookup_alter_eq, ?lookup_alter_ne by done;
        by destruct (m !! _). }
    destruct (e_nucleus e1), (e_nucleus e2); first [done|apply Hc].
  - apply map_eq. intros l. rewrite !bumps_lookup.
    destruct (kons c !! l) as [[o cd]|]; [|done]. simpl. do 2 f_equal; lia.
Qed.

Lemma count_token_swap fuel t1 t2 c :
  count_token fuel t1 c ≫= count_token fuel t2 =
  count_token fuel t2 c ≫= count_token fuel t1.
Proof.
  rewrite (count_token_effect fuel t1 c), (count_token_effect fuel t2 c).
  destruct (token_effect fuel t1 _ _) as [e1|] eqn:E1;
    destruct (token_effect fuel t2 _ _) as [e2|] eqn:E2;
    cbn [fmap option_fmap option_map mbind option_bind];
    rewrite ?count_token_effect;
    repeat match goal with
    | |- context [dom (kons (apply_effect ?n ?e ?c))] =>
        rewrite (proj1 (apply_effect_dom n e c))
    | |- context [dom (vocab (apply_effect ?n ?e ?c))] =>
        rewrite (proj2 (apply_effect_dom n e c))
    end;
    rewrite ?E1, ?E2; cbn [fmap option_fmap option_map]; try done.
  by rewrite apply_effect_comm.
Qed.

Lemma count_tokens_app fuel xs ys c :
  count_tokens fuel (xs ++ ys) c = count_tokens fuel xs c ≫= count_tokens fuel ys.
Proof.
  revert c. induction xs as [|x xs IH]; intros c; [done|].
  cbn [app count_tokens]. destruct (count_token fuel x c); [|done]. apply IH.
Qed.

Lemma count_tokens_perm fuel toks toks' c :
  toks ≡ₚ toks' → count_tokens fuel toks c = count_tokens fuel toks' c.
Proof.
  intros H. revert c. induction H as [|t l l' _ IH|t1 t2 l|l l' l'' _ IH1 _ IH2]; intros c.
  - done.
  - cbn [count_tokens]. destruct (count_token fuel t c); [|done]. apply IH.
  - cbn [count_tokens].
    pose proof (count_token_swap fuel t2 t1 c) as Hs.
    destruct (count_token fuel t2 c) as [c2|], (count_token fuel t1 c) as [c1|];
      cbn [mbind option_bind] in *.
    + destruct (count_token fuel t1 c2), (count_token fuel t2 c1); by simplify_eq.
    + by rewrite Hs.
    + by rewrite <- Hs.
    + done.
  - by rewrite IH1, IH2.
Qed.

Lemma count_words_tokens fuel data c :
  count_words fuel data c = count_tokens fuel (data ≫= tokens) c.
Proof.
  revert c. induction data as [|d data IH]; intros c; [done|].
  cbn [count_words mbind list_bind]. rewrite count_tokens_app.
  destruct (count_tokens fuel (tokens d) c); [|done]. apply IH.
Qed.

(** X7.  The result of [count_syllables] depends on the tokens only as a
    bag: two inputs whose tokens, taken over all words, are permutations
    of each other give the same counters (or both keep a call of
    [split_char] from returning).  In particular the order of the words
    and of the tokens makes no difference. *)
Theorem count_syllables_order (fuel : nat) (data data' : list ParsedWord) :
  data ≫= tokens ≡ₚ data' ≫= tokens →
  count_syllables fuel data = count_syllables fuel data'.
Proof.
  intros H. unfold count_syllables. rewrite !count_words_tokens.
  by apply count_tokens_perm.
Qed.

Lemma count_syllables_order_witness :
  tokenize identity_parser ["ba"; "ban"] ≫= tokens ≡ₚ
    tokenize identity_parser ["ban"; "ba"] ≫= tokens ∧
  count_syllables 3 (tokenize identity_parser ["ba"; "ban"]) =
    count_syllables 3 (tokenize identity_parser ["ban"; "ba"]).
Proof.
  assert (tokenize identity_parser ["ba"; "ban"] ≫= tokens ≡ₚ
          tokenize identity_parser ["ban"; "ba"] ≫= tokens) as H.
  { apply perm_swap. }
  split; [exact H|]. exact (count_syllables_order 3 _ _ H).
Defined.

(** ** [count_syllables]: when it returns *)

Lemma try_token_returns fuel tok c :
  is_Some (split_char fuel (onset tok)) →
  is_Some (split_char fuel (coda tok)) →
  is_Some (count_token fuel tok c).
Proof.
  intros [us Hus] [vs Hvs]. unfold count_token, try_token. rewrite Hus.
  cbn [mbind option_bind].
  destruct (with_kons c (hit_units at_onset us (kons c))) as [c1|e1 c1]; [|by eexists].
  rewrite Hvs. cbn [mbind option_bind].
  destruct (with_kons c1 (hit_units at_coda vs (kons c1))); by eexists.
Qed.

Lemma split_char_letters fuel s :
  Forall in_tables (chars s) → (String.length s < fuel)%nat →
  is_Some (split_char fuel s).
Proof.
  intros Hs Hf. destruct (while_word_letters fuel s [] Hs Hf) as (us & H & _). by eexists.
Qed.

Lemma count_tokens_returns fuel toks c :
  Forall (λ t, is_Some (split_char fuel (onset t)) ∧ is_Some (split_char fuel (coda t)))
    toks →
  is_Some (count_tokens fuel toks c).
Proof.
  intros H. revert c. induction H as [|t toks [Ho Hc] _ IH]; intros c; [by eexists|].
  cbn [count_tokens]. destruct (try_token_returns fuel t c Ho Hc) as [c1 ->]. apply IH.
Qed.

(** X8.  If every string the parser returns holds letters of the tables
    only, [count_syllables] returns on the tokenized database, one
    iteration more than the longest of these strings being enough for each
    call of [split_char]. *)
Theorem count_syllables_returns (fuel : nat) (parse : string → list string)
    (database : list string) :
  (∀ w p, w ∈ database → p ∈ parse w →
     Forall in_tables (chars p) ∧ (String.length p < fuel)%nat) →
  is_Some (count_syllables fuel (tokenize parse database)).
Proof.
  intros H. unfold count_syllables. rewrite count_words_tokens.
  apply count_tokens_returns, Forall_forall. intros t Ht.
  apply list_elem_of_bind in Ht as (d & Ht & Hd).
  apply list_elem_of_fmap in Hd as (w & -> & Hw). cbn [tokens parse_token] in Ht.
  apply list_elem_of_omap in Ht as (p & Hp & Ht).
  destruct (H w p Hw Hp) as [Hl Hf].
  apply decompose_Some in Ht as (_ & Hp' & _).
  rewrite Hp', !chars_app, !Forall_app in Hl. destruct Hl as (Ho & _ & Hc).
  rewrite Hp', !length_app_s in Hf.
  split; apply split_char_letters; (done || lia).
Qed.

Lemma count_syllables_returns_witness :
  (∀ w p, w ∈ ["ba"; "ban"] → p ∈ identity_parser w →
     Forall in_tables (chars p) ∧ (String.length p < 4)%nat) ∧
  is_Some (count_syllables 4 (tokenize identity_parser ["ba"; "ban"])).
Proof.
  assert (∀ w p, w ∈ ["ba"; "ban"] → p ∈ identity_parser w →
     Forall in_tables (chars p) ∧ (String.length p < 4)%nat) as H.
  { intros w p Hw Hp. apply list_elem_of_singleton in Hp as ->.
    repeat (apply elem_of_cons in Hw as [->|Hw]); [| |by apply elem_of_nil in Hw];
      (split; [apply (bool_decide_unpack _); vm_compute; exact I|simpl; lia]). }
  split; [exact H|]. exact (count_syllables_returns 4 identity_parser _ H).
Defined.

(** ** [count_syllables]: when it hangs *)

Lemma v_pattern_single g :
  g ∈ graphemes v_pattern → ∃ c, g = String c "" ∧ vowel c.
Proof.
  change (graphemes v_pattern) with ["a"; "i"; "u"; "e"; "o"].
  intros H. repeat (apply elem_of_cons in H as [->|H]); [..|by apply elem_of_nil in H];
    (eexists; split; [reflexivity|]); apply (bool_decide_unpack _); vm_compute; exact I.
Qed.

Lemma chars_join_elem (us : list (string * tag)) u c :
  u ∈ us → c ∈ chars u.1 → c ∈ chars (join us.*1).
Proof.
  induction us as [|u' us IH]; [by intros ?%elem_of_nil|].
  rewrite fmap_cons. cbn [join]. rewrite chars_app, elem_of_app.
  intros [->|Hin]%elem_of_cons Hc; [by left|right; by apply IH].
Qed.

(** The units of a string without a vowel letter are all keys of the
    consonant counters. *)
Lemma hit_units_onset sl fuel s us (kc : gmap string Kons.t) :
  dom kc = dom kons_counters0 →
  Forall (λ c, ¬ vowel c) (chars s) →
  split_char fuel s = Some us →
  hit_units sl us kc = Done (bumps sl us.*1 kc).
Proof.
  intros Hdom Hs (us' & -> & Hj & Hus)%while_word_sound. rewrite app_nil_l.
  pose proof (hit_units_spec sl us' kc) as H.
  destruct (hit_units sl us' kc) as [kc'|e kc']; [by subst|].
  destruct H as (done & ch & rest & Hch & _ & Hn & _). exfalso.
  assert (ch ∈ us'.*1) as Hin.
  { rewrite Hch. apply elem_of_app. right. apply elem_of_cons. by left. }
  apply list_elem_of_fmap in Hin as ([g tg] & Hg & Hin). cbn [fst] in Hg. subst ch.
  rewrite Forall_forall in Hus. pose proof (Hus _ Hin) as Hu.
  destruct tg; unfold unit_matched in Hu; cbn [fst snd] in Hu.
  - apply not_elem_of_dom in Hn. apply Hn. rewrite Hdom. apply elem_of_dom.
    rewrite kons_counters0_lookup. rewrite decide_True; [by eexists|exact Hu].
  - apply v_pattern_single in Hu as (c & -> & Hc).
    rewrite Forall_forall in Hs. apply (Hs c); [|exact Hc].
    rewrite <- Hj. eapply chars_join_elem; [exact Hin|].
    cbn [fst chars]. apply elem_of_cons. by left.
Qed.

Lemma count_token_hangs fuel t c :
  dom (kons c) = dom kons_counters0 →
  Forall (λ c, ¬ vowel c) (chars (onset t)) →
  Exists (λ c, ¬ in_tables c) (chars (onset t) ++ chars (coda t)) →
  count_token fuel t c = None.
Proof.
  intros Hdom Ho [Hbad|Hbad]%Exists_app; unfold count_token, try_token.
  - unfold split_char. by rewrite (while_word_spins fuel (onset t) [] Hbad).
  - destruct (split_char fuel (onset t)) as [us|] eqn:Eus; [|done].
    cbn [mbind option_bind]. rewrite (hit_units_onset _ _ _ _ _ Hdom Ho Eus).
    cbn [with_kons]. unfold split_char at 1.
    by rewrite (while_word_spins fuel (coda t) [] Hbad).
Qed.

Lemma count_tokens_hang fuel toks t c :
  t ∈ toks →
  (∀ c', dom (kons c') = dom kons_counters0 → count_token fuel t c' = None) →
  dom (kons c) = dom kons_counters0 →
  count_tokens fuel toks c = None.
Proof.
  intros Hin Ht. revert c. induction toks as [|t' toks IH]; intros c Hc.
  - by apply elem_of_nil in Hin.
  - cbn [count_tokens]. destruct (count_token fuel t' c) as [c1|] eqn:E; [|done].
    cbn [mbind option_bind].
    apply elem_of_cons in Hin as [->|Hin]; [by rewrite Ht in E|].
    apply IH; [done|]. apply count_token_dom in E as [-> _]. exact Hc.
Qed.

(** X9.  One string of the parser that holds a vowel letter and a
    character outside the tables (a digit, a hyphen, a capital) keeps
    [count_syllables] from ever returning on the tokenized database: the
    [except] around the token catches exceptions, and [split_char] raises
    none. *)
Theorem count_syllables_hangs (parse : string → list string) (database : list string)
    (w p : string) :
  w ∈ database → p ∈ parse w →
  has_vowel p → Exists (λ c, ¬ in_tables c) (chars p) →
  ∀ fuel, count_syllables fuel (tokenize parse database) = None.
Proof.
  intros Hw Hp Hv Hbad fuel.
  pose proof (decompose_has_vowel p) as Hd.
  destruct (decompose p) as [t|] eqn:Et; [|done].
  apply decompose_Some in Et as Ht. destruct Ht as (_ & Htok & Ho & Hn & _).
  unfold count_syllables. rewrite count_words_tokens.
  apply (count_tokens_hang fuel _ t); [| |done].
  - apply list_elem_of_bind. exists (parse_token parse w). split.
    + cbn [tokens parse_token]. apply list_elem_of_omap. eauto.
    + unfold tokenize. by apply list_elem_of_fmap_2.
  - intros c' Hc'. apply count_token_hangs; [done|done|].
    rewrite Htok, !chars_app, !Exists_app in Hbad. apply Exists_app.
    destruct Hbad as [?|[Hbad|?]]; [by left| |by right].
    exfalso. assert (grapheme (nucleus t)) as [_ Hg]%grapheme_letters by (by right).
    apply Exists_exists in Hbad as (x & Hx & Hnx).
    rewrite Forall_forall in Hg. by apply Hg in Hx.
Qed.

Lemma count_syllables_hangs_witness :
  has_vowel "a-" ∧ Exists (λ c, ¬ in_tables c) (chars "a-") ∧
  ∀ fuel, count_syllables fuel (tokenize identity_parser ["ba"; "a-"]) = None.
Proof.
  assert (has_vowel "a-") as Hv by (apply (bool_decide_unpack _); vm_compute; exact I).
  assert (Exists (λ c, ¬ in_tables c) (chars "a-")) as Hb
    by (apply (bool_decide_unpack _); vm_compute; exact I).
  split_and!; [exact Hv|exact Hb|].
  apply (count_syllables_hangs identity_parser ["ba"; "a-"] "a-" "a-"); [|..|exact Hv|exact Hb].
  - apply elem_of_cons. right. apply elem_of_cons. by left.
  - unfold identity_parser. apply elem_of_cons. by left.
Defined.

(** ** [load_fitures_spec]: the shape of what is loaded *)

(** A group as [add_letter] builds it: no key twice, and under each key
    the fresh point [FDPoint(letter=key)], all counts zero. *)
Definition group_fresh (t : FDType.t) : Prop :=
  NoDup (FDType.points t).*1 ∧
  Forall (λ kp, kp.2 = FDPoint.new kp.1) (FDType.points t).

Definition fd_fresh (fd : FD.t) : Prop :=
  FDType.ftype (FD.plus fd) = "plus" ∧ FDType.ftype (FD.minus fd) = "minus" ∧
  group_fresh (FD.plus fd) ∧ group_fresh (FD.minus fd).

Lemma add_letter_ftype char t :
  FDType.ftype (FDType.add_letter char t) = FDType.ftype t.
Proof. unfold FDType.add_letter. by destruct (FDType.has_key _ _). Qed.

Lemma add_letter_keys char t :
  (FDType.points (FDType.add_letter char t)).*1 =
  if FDType.has_key char (FDType.points t) then (FDType.points t).*1
  else (FDType.points t).*1 ++ [char].
Proof.
  unfold FDType.add_letter. destruct (FDType.has_key _ _); [done|].
  cbn [FDType.points]. by rewrite fmap_app.
Qed.

Lemma add_letter_fresh char t : group_fresh t → group_fresh (FDType.add_letter char t).
Proof.
  intros [Hnd Hall]. unfold group_fresh. rewrite add_letter_keys.
  unfold FDType.add_letter, FDType.has_key.
  case_bool_decide as Hin; [done|]. cbn [FDType.points]. split.
  - apply NoDup_app. split_and!; [done| |apply NoDup_singleton].
    intros x Hx ->%list_elem_of_singleton. done.
  - apply Forall_app. split; [done|]. by repeat constructor.
Qed.

Lemma add_flag_fresh char fl fd :
  fd_fresh fd → fd_fresh (add_flag char fl fd) ∧ FD.name (add_flag char fl fd) = FD.name fd.
Proof.
  intros (Hp & Hm & Hgp & Hgm). unfold add_flag, fd_fresh.
  repeat case_decide; cbn [FD.plus FD.minus FD.name]; rewrite ?add_letter_ftype;
    split_and!; auto using add_letter_fresh.
Qed.

Lemma add_flags_fresh char fls fds :
  Forall fd_fresh fds →
  Forall fd_fresh (add_flags char fls fds) ∧
  FD.name <$> add_flags char fls fds = FD.name <$> fds.
Proof.
  revert fls. induction fds as [|fd fds IH]; intros fls Hall.
  - by destruct fls.
  - destruct fls as [|fl fls]; [done|]. cbn [add_flags].
    apply Forall_cons in Hall as [Hfd Hall].
    destruct (add_flag_fresh char fl fd Hfd) as [Hf Hn].
    destruct (IH fls Hall) as [IH1 IH2].
    split; [by constructor|]. rewrite !fmap_cons. by rewrite Hn, IH2.
Qed.

Lemma add_line_fresh fds line :
  Forall fd_fresh fds →
  Forall fd_fresh (add_line fds line) ∧ FD.name <$> add_line fds line = FD.name <$> fds.
Proof.
  intros H. unfold add_line. destruct (split_space (strip line)) as [|char fls]; [done|].
  by apply add_flags_fresh.
Qed.

Lemma foldl_add_line_fresh lines fds :
  Forall fd_fresh fds →
  Forall fd_fresh (foldl add_line fds lines) ∧
  FD.name <$> foldl add_line fds lines = FD.name <$> fds.
Proof.
  revert fds. induction lines as [|line lines IH]; intros fds H; [done|].
  cbn [foldl]. destruct (add_line_fresh fds line H) as [H1 H2].
  destruct (IH _ H1) as [H3 H4]. split; [done|]. by rewrite H4.
Qed.

Lemma load_fitures_spec_fresh fiturs lines :
  Forall fd_fresh (load_fitures_spec fiturs lines) ∧
  FD.name <$> load_fitures_spec fiturs lines = fiturs.
Proof.
  unfold load_fitures_spec.
  destruct (foldl_add_line_fresh lines
    ((λ name, FD.mk name (FDType.mk "plus" []) (FDType.mk "minus" [])) <$> fiturs))
    as [H1 H2].
  - apply Forall_fmap, Forall_forall. intros name _.
    split_and!; [done|done|split; [constructor|constructor]..].
  - split; [done|]. rewrite H2, <- list_fmap_compose.
    clear. induction fiturs as [|x xs IH]; [done|]. rewrite fmap_cons. by f_equal.
Qed.

(** X10.  Whatever the lines of the file, [load_fitures_spec] returns one
    feature per name, in the order of the names; each has a group "plus"
    and a group "minus", no group holds a letter twice, and every point
    stands under its own letter with all its counts zero. *)
Theorem load_fitures_spec_shape (fiturs lines : list string) :
  FD.name <$> load_fitures_spec fiturs lines = fiturs ∧
  Forall (λ fd,
      FDType.ftype (FD.plus fd) = "plus" ∧ FDType.ftype (FD.minus fd) = "minus" ∧
      NoDup (FDType.points (FD.plus fd)).*1 ∧
      NoDup (FDType.points (FD.minus fd)).*1 ∧
      Forall (λ kp, kp.2 = FDPoint.mk kp.1 0 0 0)
        (FDType.points (FD.plus fd) ++ FDType.points (FD.minus fd)))
    (load_fitures_spec fiturs lines).
Proof.
  destruct (load_fitures_spec_fresh fiturs lines) as [H1 H2]. split; [done|].
  eapply Forall_impl; [exact H1|].
  intros fd (Hp & Hm & [Hnp Hap] & [Hnm Ham]).
  split_and!; [done..|]. by apply Forall_app.
Qed.

(** ** [load_fitures_spec]: which letters are in which group *)

(** The group of a feature for a flag, and its keys. *)
Definition group_keys (flag : string) (fd : FD.t) : list string :=
  if decide (flag = "+") then (FDType.points (FD.plus fd)).*1
  else (FDType.points (FD.minus fd)).*1.

(** The line declares [char] with [flag] in column [i]. *)
Definition declares (i : nat) (flag char : string) (line : string) : Prop :=
  ∃ flags, split_space (strip line) = char :: flags ∧ flags !! i = Some flag.

Lemma add_letter_elem char t x :
  x ∈ (FDType.points (FDType.add_letter char t)).*1 ↔
  x ∈ (FDType.points t).*1 ∨ x = char.
Proof.
  rewrite add_letter_keys. unfold FDType.has_key. case_bool_decide as Hin.
  - split; [by left|]. by intros [?| ->].
  - rewrite elem_of_app, list_elem_of_singleton. done.
Qed.

Lemma add_flag_elem flag char fl fd x :
  flag = "+" ∨ flag = "-" →
  x ∈ group_keys flag (add_flag char fl fd) ↔
  x ∈ group_keys flag fd ∨ (x = char ∧ fl = flag).
Proof.
  intros Hflag. unfold group_keys, add_flag.
  destruct Hflag as [-> | ->]; [rewrite !decide_True by done|rewrite !decide_False by done];
    repeat case_decide; subst; cbn [FD.plus FD.minus];
    rewrite ?add_letter_elem; intuition congruence.
Qed.

Lemma add_flags_lookup char fls fds i :
  add_flags char fls fds !! i =
  (λ fd, match fls !! i with Some fl => add_flag char fl fd | None => fd end) <$> fds !! i.
Proof.
  revert fls i. induction fds as [|fd fds IH]; intros fls i.
  - by destruct fls.
  - destruct fls as [|fl fls].
    + cbn [add_flags]. rewrite lookup_nil. by destruct ((fd :: fds) !! i).
    + cbn [add_flags]. destruct i as [|i]; [done|]. cbn [lookup list_lookup]. apply IH.
Qed.

Lemma split_space_cons s : ∃ w ws, split_space s = w :: ws.
Proof.
  induction s as [|c s (w & ws & IH)]; [by eexists _, _|].
  cbn [split_space]. rewrite IH. destruct (Ascii.eqb c " "); by eexists _, _.
Qed.

Lemma add_line_elem flag fds line i fd' x :
  flag = "+" ∨ flag = "-" →
  add_line fds line !! i = Some fd' →
  ∃ fd, fds !! i = Some fd ∧
    (x ∈ group_keys flag fd' ↔ x ∈ group_keys flag fd ∨ declares i flag x line).
Proof.
  intros Hflag. unfold add_line, declares.
  destruct (split_space_cons (strip line)) as (char & fls & ->).
  rewrite add_flags_lookup. destruct (fds !! i) as [fd|]; [|done].
  cbn [fmap option_fmap option_map]. intros [= <-]. exists fd. split; [done|].
  destruct (fls !! i) as [fl|] eqn:E.
  - rewrite add_flag_elem by done. split; (intros [?|H]; [by left|right]).
    + destruct H as [-> ->]. by exists fls.
    + destruct H as (fls' & [= -> ->] & H). rewrite E in H. by injection H as ->.
  - split; [by left|]. intros [?|(fls' & [= -> ->] & H)]; [done|congruence].
Qed.

Lemma foldl_add_line_elem flag lines fds i fd' x :
  flag = "+" ∨ flag = "-" →
  foldl add_line fds lines !! i = Some fd' →
  ∃ fd, fds !! i = Some fd ∧
    (x ∈ group_keys flag fd' ↔
     x ∈ group_keys flag fd ∨ ∃ line, line ∈ lines ∧ declares i flag x line).
Proof.
  intros Hflag. revert fds. induction lines as [|line lines IH]; intros fds.
  - intros H. exists fd'. split; [done|]. split; [by left|].
    intros [?|(line & ?%elem_of_nil & _)]; done.
  - cbn [foldl]. intros (fd1 & H1 & Hiff)%IH.
    apply (add_line_elem flag _ _ _ _ x Hflag) in H1 as (fd & Hfd & Hiff1).
    exists fd. split; [done|]. rewrite Hiff, Hiff1. split.
    + intros [[?|?]|(l & Hl & ?)]; [by left| |].
      * right. exists line. split; [apply elem_of_cons; by left|done].
      * right. exists l. split; [apply elem_of_cons; by right|done].
    + intros [?|(l & [->|Hl]%elem_of_cons & ?)]; [by left; left|by left; right|].
      right. by exists l.
Qed.

(** X11.  A letter is in the "plus" group of the feature in column [i]
    exactly when some line of the file, stripped and split at single
    spaces, has the letter as its first field and ["+"] as its flag
    number [i]; likewise for the "minus" group and ["-"].  So a letter that
    starts no line is in no group, a flag beyond the last feature adds
    nothing, and a line that is short of flags leaves the later features
    alone. *)
Theorem load_fitures_spec_letters (fiturs lines : list string) (i : nat) (fd : FD.t)
    (char : string) :
  load_fitures_spec fiturs lines !! i = Some fd →
  (char ∈ (FDType.points (FD.plus fd)).*1 ↔
     ∃ line, line ∈ lines ∧ declares i "+" char line) ∧
  (char ∈ (FDType.points (FD.minus fd)).*1 ↔
     ∃ line, line ∈ lines ∧ declares i "-" char line).
Proof.
  unfold load_fitures_spec. intros H.
  pose proof (foldl_add_line_elem "+" _ _ _ _ char (or_introl eq_refl) H) as (fd0 & H0 & Hp).
  pose proof (foldl_add_line_elem "-" _ _ _ _ char (or_intror eq_refl) H) as (fd1 & H1 & Hm).
  rewrite H0 in H1. injection H1 as <-.
  rewrite list_lookup_fmap in H0. destruct (fiturs !! i) as [name|]; [|done].
  injection H0 as <-. unfold group_keys in Hp, Hm. cbn in Hp, Hm.
  split.
  - rewrite Hp. split; [intros [?%elem_of_nil|?]; done|by right].
  - rewrite Hm. split; [intros [?%elem_of_nil|?]; done|by right].
Qed.

Lemma load_fitures_spec_letters_witness :
  load_fitures_spec ["voice"; "nasal"] ["b + -"; "m + +"; "p -"] !! 1%nat =
    Some (FD.mk "nasal" (FDType.mk "plus" [("m", FDPoint.new "m")])
            (FDType.mk "minus" [("b", FDPoint.new "b")])) ∧
  ("p" ∈ ["m"] ↔ ∃ line, line ∈ ["b + -"; "m + +"; "p -"] ∧ declares 1 "+" "p" line).
Proof.
  assert (load_fitures_spec ["voice"; "nasal"] ["b + -"; "m + +"; "p -"] !! 1%nat =
    Some (FD.mk "nasal" (FDType.mk "plus" [("m", FDPoint.new "m")])
            (FDType.mk "minus" [("b", FDPoint.new "b")]))) as H by (vm_compute; reflexivity).
  split; [exact H|].
  exact (proj1 (load_fitures_spec_letters _ _ _ _ "p" H)).
Defined.

(** ** The counts of [count_syllables] under [count_in_map] *)

(** Every value of the map fits the letter it stands under. *)
Definition well_shaped (map : gmap string value) : Prop :=
  ∀ l v, map !! l = Some v → fits l v = true.

Lemma cons_not_vocal l : l ∈ cons → is_vocal l = false.
Proof.
  assert (Forall (λ l, is_vocal l = false) cons) as H.
  { apply (bool_decide_unpack _). vm_compute. exact I. }
  rewrite Forall_forall in H. apply H.
Qed.

Lemma kons_values_shaped (kc : gmap string Kons.t) :
  dom kc = dom kons_counters0 → well_shaped (kons_values kc).
Proof.
  intros Hdom l v. unfold kons_values. rewrite lookup_fmap.
  destruct (kc !! l) as [k|] eqn:E; [|done]. intros [= <-].
  assert (l ∈ cons) as Hl.
  { assert (l ∈ dom kons_counters0) as Hin by (rewrite <- Hdom; apply elem_of_dom; eauto).
    apply elem_of_dom in Hin as [k0 Hk0]. rewrite kons_counters0_lookup in Hk0.
    by case_decide. }
  unfold fits. rewrite (cons_not_vocal l Hl).
  rewrite lookup_insert_ne, !lookup_insert_eq by done.
  rewrite !bool_decide_eq_true_2 by eauto. done.
Qed.

Lemma vocab_values_shaped (vc : gmap string Z) :
  dom vc = dom vocab_counters0 → well_shaped (vocab_values vc).
Proof.
  intros Hdom l v. unfold vocab_values. rewrite lookup_fmap.
  destruct (vc !! l) as [n|] eqn:E; [|done]. intros [= <-].
  assert (l ∈ vocabs) as Hl.
  { assert (l ∈ dom vocab_counters0) as Hin by (rewrite <- Hdom; apply elem_of_dom; eauto).
    apply elem_of_dom in Hin as [k0 Hk0]. rewrite vocab_counters0_lookup in Hk0.
    by case_decide. }
  unfold fits, is_vocal. by rewrite bool_decide_eq_true_2.
Qed.

Lemma count_syllables_dom fuel data c :
  count_syllables fuel data = Some c →
  dom (kons c) = dom kons_counters0 ∧ dom (vocab c) = dom vocab_counters0.
Proof. by intros (? & ? & _)%count_words_inv. Qed.

Lemma shaped_no_misfit map p : well_shaped map → misfit map p = false.
Proof.
  intros H. unfold misfit. destruct (map !! FDPoint.letter p) as [v|] eqn:E; [|done].
  by rewrite (H _ _ E).
Qed.

Lemma count_all_shaped map fds : well_shaped map → is_raised (count_all map fds) = false.
Proof.
  intros H. rewrite count_all_raised.
  induction fds as [|fd fds IH]; [done|]. cbn [existsb]. rewrite IH, orb_false_r.
  assert (∀ t, type_misfit map t = false) as Ht.
  { intros t. unfold type_misfit. induction (FDType.points t) as [|kp ps IHp]; [done|].
    cbn [existsb]. by rewrite shaped_no_misfit, IHp. }
  unfold fd_misfit. by rewrite !Ht.
Qed.

(** X12.  The checks of [count_in_map] never fire on the counters that
    [count_syllables] returns: whatever the features, applying its
    consonant counts, or its vowel counts, raises nothing. *)
Theorem count_all_on_counts (fuel : nat) (data : list ParsedWord) (c : SyllCounter)
    (fds : list FD.t) :
  count_syllables fuel data = Some c →
  is_raised (count_all (kons_values (kons c)) fds) = false ∧
  is_raised (count_all (vocab_values (vocab c)) fds) = false.
Proof.
  intros [Hk Hv]%count_syllables_dom.
  split; apply count_all_shaped; [by apply kons_values_shaped|by apply vocab_values_shaped].
Qed.

Lemma count_all_on_counts_witness :
  count_syllables 3 (tokenize identity_parser ["ba"; "ban"]) =
    Some (mkSyllCounter (<["a" := 2]> vocab_counters0)
            (<["n" := Kons.mk 0 1]> (<["b" := Kons.mk 2 0]> kons_counters0))) ∧
  is_raised (count_all
    (kons_values (<["n" := Kons.mk 0 1]> (<["b" := Kons.mk 2 0]> kons_counters0)))
    (load_fitures_spec ["voice"] ["b +"; "a +"; "n -"])) = false.
Proof.
  assert (count_syllables 3 (tokenize identity_parser ["ba"; "ban"]) =
    Some (mkSyllCounter (<["a" := 2]> vocab_counters0)
            (<["n" := Kons.mk 0 1]> (<["b" := Kons.mk 2 0]> kons_counters0)))) as H
    by (vm_compute; reflexivity).
  split; [exact H|]. exact (proj1 (count_all_on_counts _ _ _ _ H)).
Defined.

(** ** The documents of the main program *)

(** The document of a letter under the consonant counts and under the
    vowel counts. *)
Definition kons_point (kc : gmap string Kons.t) (l : string) : point_doc :=
  if is_vocal l then vocal_doc l 0
  else
    match kc !! l with
    | Some k => kons_doc l (Kons.coda k) (Kons.onset k) (Kons.coda k + Kons.onset k)
    | None => kons_doc l 0 0 0
    end.

Definition vocal_point (vc : gmap string Z) (l : string) : point_doc :=
  if is_vocal l then vocal_doc l (default 0 (vc !! l)) else kons_doc l 0 0 0.

(** The documents of features whose groups show each letter by [f]. *)
Definition documents_by (f : string → point_doc) (tg : string) (fds : list FD.t)
    : list (FD.doc * string) :=
  (λ fd, (FD.mk_doc (FD.name fd)
            (FDType.ftype (FD.plus fd), f <$> (FDType.points (FD.plus fd)).*1)
            (FDType.ftype (FD.minus fd), f <$> (FDType.points (FD.minus fd)).*1),
          tg)) <$> fds.

Section documents.
Variable map : gmap string value.
Hypothesis shaped : well_shaped map.

Definition point_by (l : string) : point_doc :=
  FDPoint.asdict (state_of (FDPoint.count_in_map map (FDPoint.new l))).

Lemma point_done p : ∃ p', FDPoint.count_in_map map p = Done p'.
Proof.
  pose proof (point_raised map p) as H. rewrite shaped_no_misfit in H by done.
  destruct (FDPoint.count_in_map map p); [by eexists|done].
Qed.

Lemma points_by ps :
  Forall (λ kp, kp.2 = FDPoint.new kp.1) ps →
  ∃ ps', FDType.count_points map ps = Done ps' ∧
    (λ kp, FDPoint.asdict kp.2) <$> ps' = point_by <$> ps.*1.
Proof.
  induction 1 as [|[k p] ps Hp _ (ps' & IH1 & IH2)]; [by exists []|].
  cbn [FDType.count_points]. cbn [fst snd] in Hp. subst p.
  destruct (point_done (FDPoint.new k)) as [p' Ep]. rewrite Ep, IH1.
  eexists. split; [done|]. rewrite !fmap_cons. cbn [fst snd]. rewrite IH2.
  unfold point_by at 2. by rewrite Ep.
Qed.

Lemma type_by t :
  group_fresh t →
  ∃ t', FDType.count_in_map map t = Done t' ∧
    FDType.asdict t' = (FDType.ftype t, point_by <$> (FDType.points t).*1).
Proof.
  intros [_ H]. destruct (points_by _ H) as (ps' & E & Hd).
  unfold FDType.count_in_map. rewrite E. eexists. split; [done|].
  unfold FDType.asdict. cbn [FDType.ftype FDType.points]. by rewrite Hd.
Qed.

Lemma count_all_by tg fds :
  Forall fd_fresh fds →
  ∃ fds', count_all map fds = Done fds' ∧ documents tg fds' = documents_by point_by tg fds.
Proof.
  induction 1 as [|fd fds (_ & _ & Hp & Hm) _ (fds' & IH1 & IH2)]; [by exists []|].
  cbn [count_all]. unfold FD.count_in_map.
  destruct (type_by _ Hp) as (p' & Ep & Dp). destruct (type_by _ Hm) as (m' & Em & Dm).
  rewrite Ep, Em, IH1. eexists. split; [done|].
  unfold documents, documents_by in *. rewrite !fmap_cons, IH2.
  unfold FD.asdict. cbn [FD.name FD.plus FD.minus]. by rewrite Dp, Dm.
Qed.
End documents.

Lemma point_by_kons (kc : gmap string Kons.t) l :
  dom kc = dom kons_counters0 → point_by (kons_values kc) l = kons_point kc l.
Proof.
  intros Hdom. unfold point_by, kons_point, FDPoint.count_in_map, kons_values, FDPoint.new.
  cbn [FDPoint.letter FDPoint.nucleus FDPoint.coda FDPoint.onset]. rewrite lookup_fmap.
  destruct (kc !! l) as [k|] eqn:E; cbn [fmap option_fmap option_map].
  - assert (is_vocal l = false) as Hv.
    { apply cons_not_vocal.
      assert (l ∈ dom kons_counters0) as Hin by (rewrite <- Hdom; apply elem_of_dom; eauto).
      apply elem_of_dom in Hin as [k0 Hk0]. rewrite kons_counters0_lookup in Hk0.
      by case_decide. }
    rewrite Hv. cbv beta iota. rewrite lookup_insert_ne, !lookup_insert_eq by done.
    cbn [state_of]. unfold FDPoint.asdict. cbn [FDPoint.letter FDPoint.coda FDPoint.onset].
    by rewrite Hv.
  - cbn [state_of]. unfold FDPoint.asdict, FDPoint.new.
    cbn [FDPoint.letter FDPoint.coda FDPoint.onset FDPoint.nucleus].
    by destruct (is_vocal l).
Qed.

Lemma point_by_vocal (vc : gmap string Z) l :
  dom vc = dom vocab_counters0 → point_by (vocab_values vc) l = vocal_point vc l.
Proof.
  intros Hdom. unfold point_by, vocal_point, FDPoint.count_in_map, vocab_values, FDPoint.new.
  cbn [FDPoint.letter FDPoint.nucleus FDPoint.coda FDPoint.onset]. rewrite lookup_fmap.
  destruct (vc !! l) as [n|] eqn:E; cbn [fmap option_fmap option_map default].
  - assert (is_vocal l = true) as Hv.
    { unfold is_vocal. apply bool_decide_eq_true_2.
      assert (l ∈ dom vocab_counters0) as Hin by (rewrite <- Hdom; apply elem_of_dom; eauto).
      apply elem_of_dom in Hin as [k0 Hk0]. rewrite vocab_counters0_lookup in Hk0.
      by case_decide. }
    rewrite Hv. cbn [state_of]. unfold FDPoint.asdict. cbn [FDPoint.letter FDPoint.nucleus].
    by rewrite Hv.
  - cbn [state_of]. unfold FDPoint.asdict, FDPoint.new.
    cbn [FDPoint.letter FDPoint.coda FDPoint.onset FDPoint.nucleus].
    destruct (is_vocal l) eqn:Hv; [|done]. exfalso.
    apply not_elem_of_dom in E. apply E. rewrite Hdom. apply elem_of_dom.
    rewrite vocab_counters0_lookup. rewrite decide_True; [by eexists|].
    by apply bool_decide_eq_true in Hv.
Qed.

Lemma documents_by_ext f g tg fds :
  (∀ l, f l = g l) → documents_by f tg fds = documents_by g tg fds.
Proof.
  intros H. unfold documents_by.
  assert (∀ ks : list string, f <$> ks = g <$> ks) as Hks.
  { intros ks. apply list_fmap_ext. auto. }
  apply list_fmap_ext. intros _ fd _. by rewrite !Hks.
Qed.

(** X13.  On the counters that [count_syllables] returns, the two steps of
    the main program (load the features, apply the counts, build the
    tagged documents) return, and their documents are known letter by
    letter.  Under the consonant counts a consonant of the table shows its
    coda and onset counts and their sum as total, and any other letter
    zeros; under the vowel counts a vowel of the table shows its count and
    any other letter zeros.  The letters stand in the order of the loaded
    groups. *)
Theorem documents_of_counts (fuel : nat) (data : list ParsedWord) (c : SyllCounter)
    (fiturs lines : list string) :
  count_syllables fuel data = Some c →
  (∃ kf, count_all (kons_values (kons c)) (load_fitures_spec fiturs lines) = Done kf ∧
     documents "konsonan" kf =
     documents_by (kons_point (kons c)) "konsonan" (load_fitures_spec fiturs lines)) ∧
  (∃ vf, count_all (vocab_values (vocab c)) (load_fitures_spec fiturs lines) = Done vf ∧
     documents "vocal" vf =
     documents_by (vocal_point (vocab c)) "vocal" (load_fitures_spec fiturs lines)).
Proof.
  intros [Hk Hv]%count_syllables_dom.
  destruct (load_fitures_spec_fresh fiturs lines) as [Hf _]. split.
  - destruct (count_all_by _ (kons_values_shaped _ Hk) "konsonan" _ Hf) as (kf & E & D).
    exists kf. split; [done|]. rewrite D. apply documents_by_ext.
    intros l. by apply point_by_kons.
  - destruct (count_all_by _ (vocab_values_shaped _ Hv) "vocal" _ Hf) as (vf & E & D).
    exists vf. split; [done|]. rewrite D. apply documents_by_ext.
    intros l. by apply point_by_vocal.
Qed.

Lemma documents_of_counts_witness :
  count_syllables 3 (tokenize identity_parser ["ba"; "ban"]) =
    Some (mkSyllCounter (<["a" := 2]> vocab_counters0)
            (<["n" := Kons.mk 0 1]> (<["b" := Kons.mk 2 0]> kons_counters0))) ∧
  ∃ kf,
    count_all (kons_values (<["n" := Kons.mk 0 1]> (<["b" := Kons.mk 2 0]> kons_counters0)))
      (load_fitures_spec ["voice"] ["b +"; "a +"; "n -"]) = Done kf ∧
    documents "konsonan" kf =
      [ (FD.mk_doc "voice" ("plus", [kons_doc "b" 0 2 2; vocal_doc "a" 0])
           ("minus", [kons_doc "n" 1 0 1]), "konsonan") ].
Proof.
  assert (count_syllables 3 (tokenize identity_parser ["ba"; "ban"]) =
    Some (mkSyllCounter (<["a" := 2]> vocab_counters0)
            (<["n" := Kons.mk 0 1]> (<["b" := Kons.mk 2 0]> kons_counters0)))) as H
    by (vm_compute; reflexivity).
  split; [exact H|].
  destruct (proj1 (documents_of_counts _ _ _ ["voice"] ["b +"; "a +"; "n -"] H))
    as (kf & E & D).
  exists kf. split; [exact E|]. rewrite D. vm_compute. reflexivity.
Defined.

(** ** [count_in_map]: where an exception leaves the features *)

Lemma count_points_stops map ps e st :
  FDType.count_points map ps = Raised e st →
  ∃ pre k p rest pre',
    ps = pre ++ (k, p) :: rest ∧
    FDType.count_points map pre = Done pre' ∧
    FDPoint.count_in_map map p = Raised e p ∧
    st = pre' ++ (k, p) :: rest.
Proof.
  revert st. induction ps as [|[k p] ps IH]; intros st; [done|].
  cbn [FDType.count_points].
  destruct (FDPoint.count_in_map map p) as [p1|e1 p1] eqn:Ep.
  - destruct (FDType.count_points map ps) as [ps1|e2 ps2] eqn:Eps; [done|].
    intros [= <- <-].
    destruct (IH _ eq_refl) as (pre & k' & p' & rest & pre' & -> & Hpre & Hp & ->).
    exists ((k, p) :: pre), k', p', rest, ((k, p1) :: pre').
    split_and!; [done| |done|done]. cbn [FDType.count_points]. by rewrite Ep, Hpre.
  - intros [= <- <-]. exists [], k, p, ps, [].
    assert (p1 = p) as ->.
    { revert Ep. unfold FDPoint.count_in_map.
      repeat case_match; intros; by simplify_eq. }
    done.
Qed.

(** X14.  When applying the counts to a group raises, the points before
    the failing one hold their new counts, the failing point and all the
    points after it are exactly as they were (a point never gets its coda
    without its onset), and the exception is the one of the failing
    point. *)
Theorem count_in_map_stops (map : gmap string value) (t t' : FDType.t) (e : error) :
  FDType.count_in_map map t = Raised e t' →
  ∃ pre k p rest pre',
    FDType.points t = pre ++ (k, p) :: rest ∧
    FDType.count_points map pre = Done pre' ∧
    FDPoint.count_in_map map p = Raised e p ∧
    FDType.points t' = pre' ++ (k, p) :: rest ∧
    FDType.ftype t' = FDType.ftype t.
Proof.
  unfold FDType.count_in_map.
  destruct (FDType.count_points map (FDType.points t)) as [ps|e1 st] eqn:E; [done|].
  intros [= <- <-].
  destruct (count_points_stops _ _ _ _ E) as (pre & k & p & rest & pre' & ? & ? & ? & ?).
  by exists pre, k, p, rest, pre'.
Qed.

Lemma count_in_map_stops_witness :
  FDType.count_in_map {["b" := VDict {["coda" := 4]}; "p" := VInt 1]}
    (FDType.mk "plus" [("a", FDPoint.new "a"); ("b", FDPoint.new "b"); ("p", FDPoint.new "p")]) =
    Raised (Exception "onset is not in")
      (FDType.mk "plus" [("a", FDPoint.new "a"); ("b", FDPoint.new "b"); ("p", FDPoint.new "p")]) ∧
  ∃ pre k p rest pre',
    [("a", FDPoint.new "a"); ("b", FDPoint.new "b"); ("p", FDPoint.new "p")] =
      pre ++ (k, p) :: rest ∧
    FDType.count_points {["b" := VDict {["coda" := 4]}; "p" := VInt 1]} pre = Done pre'.
Proof.
  assert (FDType.count_in_map {["b" := VDict {["coda" := 4]}; "p" := VInt 1]}
    (FDType.mk "plus" [("a", FDPoint.new "a"); ("b", FDPoint.new "b"); ("p", FDPoint.new "p")]) =
    Raised (Exception "onset is not in")
      (FDType.mk "plus" [("a", FDPoint.new "a"); ("b", FDPoint.new "b"); ("p", FDPoint.new "p")]))
    as H by (vm_compute; reflexivity).
  split; [exact H|].
  destruct (count_in_map_stops _ _ _ _ H) as (pre & k & p & rest & pre' & Hps & Hpre & _).
  cbn [FDType.points] in Hps. by exists pre, k, p, rest, pre'.
Defined.

(** X15.  When applying the counts to a list of features raises, the
    features before the failing one are fully updated, the features after
    it are untouched, and within the failing feature a "plus" group that
    raised leaves the "minus" group untouched. *)
Theorem count_all_stops (map : gmap string value) (fds st : list FD.t) (e : error) :
  count_all map fds = Raised e st →
  ∃ pre fd rest pre' fd',
    fds = pre ++ fd :: rest ∧
    count_all map pre = Done pre' ∧
    FD.count_in_map map fd = Raised e fd' ∧
    st = pre' ++ fd' :: rest ∧
    (is_raised (FDType.count_in_map map (FD.plus fd)) = true →
     FD.minus fd' = FD.minus fd).
Proof.
  revert st. induction fds as [|fd fds IH]; intros st; [done|].
  cbn [count_all].
  destruct (FD.count_in_map map fd) as [fd1|e1 fd1] eqn:Efd.
  - destruct (count_all map fds) as [r|e2 r] eqn:Efds; [done|].
    intros [= <- <-].
    destruct (IH _ eq_refl) as (pre & fd0 & rest & pre' & fd' & -> & Hpre & Hfd & -> & Hm).
    exists (fd :: pre), fd0, rest, (fd1 :: pre'), fd'.
    split_and!; [done| |done|done|done]. cbn [count_all]. by rewrite Efd, Hpre.
  - intros [= <- <-]. exists [], fd, fds, [], fd1. split_and!; [done..|].
    revert Efd. unfold FD.count_in_map.
    destruct (FDType.count_in_map map (FD.plus fd)); [done|]. by intros [= <- <-].
Qed.

Lemma count_all_stops_witness :
  count_all {["b" := VInt 3]}
    (load_fitures_spec ["voice"; "nasal"] ["p + -"; "b - +"]) =
    Raised (Exception "Unknown value")
      (load_fitures_spec ["voice"; "nasal"] ["p + -"; "b - +"]) ∧
  ∃ pre fd rest,
    load_fitures_spec ["voice"; "nasal"] ["p + -"; "b - +"] = pre ++ fd :: rest.
Proof.
  assert (count_all {["b" := VInt 3]}
    (load_fitures_spec ["voice"; "nasal"] ["p + -"; "b - +"]) =
    Raised (Exception "Unknown value")
      (load_fitures_spec ["voice"; "nasal"] ["p + -"; "b - +"])) as H
    by (vm_compute; reflexivity).
  split; [exact H|].
  destruct (count_all_stops _ _ _ _ H) as (pre & fd & rest & _ & _ & Hfds & _).
  by exists pre, fd, rest.
Defined.

(** ** The counters of a point and its document *)

(** [FDPoint.hit_coda], [FDPoint.hit_onset] and [FDPoint.hit_nucleus]. *)
Module FDPoint_hit.
Definition hit_coda (self : FDPoint.t) : FDPoint.t :=
  FDPoint.mk (FDPoint.letter self) (FDPoint.nucleus self)
    (FDPoint.coda self + 1) (FDPoint.onset self).

Definition hit_onset (self : FDPoint.t) : FDPoint.t :=
  FDPoint.mk (FDPoint.letter self) (FDPoint.nucleus self)
    (FDPoint.coda self) (FDPoint.onset self + 1).

Definition hit_nucleus (self : FDPoint.t) : FDPoint.t :=
  FDPoint.mk (FDPoint.letter self) (FDPoint.nucleus self + 1)
    (FDPoint.coda self) (FDPoint.onset self).
End FDPoint_hit.

Definition doc_total (d : point_doc) : Z :=
  match d with
  | vocal_doc _ total => total
  | kons_doc _ _ _ total => total
  end.

(** X16.  The document of a point shows the counters of the class of its
    letter only.  For a vowel of the table the total is the nucleus count:
    [hit_nucleus] raises it by one, and [hit_coda] and [hit_onset] do not
    show in the document at all.  For any other letter the total is coda
    plus onset: [hit_coda] and [hit_onset] raise it by one each, and
    [hit_nucleus] does not show. *)
Theorem asdict_hits (self : FDPoint.t) :
  (is_vocal (FDPoint.letter self) = true →
     doc_total (FDPoint.asdict (FDPoint_hit.hit_nucleus self)) =
       doc_total (FDPoint.asdict self) + 1 ∧
     FDPoint.asdict (FDPoint_hit.hit_coda self) = FDPoint.asdict self ∧
     FDPoint.asdict (FDPoint_hit.hit_onset self) = FDPoint.asdict self) ∧
  (is_vocal (FDPoint.letter self) = false →
     doc_total (FDPoint.asdict (FDPoint_hit.hit_coda self)) =
       doc_total (FDPoint.asdict self) + 1 ∧
     doc_total (FDPoint.asdict (FDPoint_hit.hit_onset self)) =
       doc_total (FDPoint.asdict self) + 1 ∧
     FDPoint.asdict (FDPoint_hit.hit_nucleus self) = FDPoint.asdict self).
Proof.
  unfold FDPoint.asdict, FDPoint_hit.hit_coda, FDPoint_hit.hit_onset,
    FDPoint_hit.hit_nucleus.
  cbn [FDPoint.letter FDPoint.nucleus FDPoint.coda FDPoint.onset].
  split; intros ->; cbn [doc_total]; split_and!; (done || lia).
Qed.

Lemma asdict_hits_witness :
  is_vocal (FDPoint.letter (FDPoint.new "ng")) = false ∧
  doc_total (FDPoint.asdict (FDPoint_hit.hit_coda (FDPoint.new "ng"))) =
    doc_total (FDPoint.asdict (FDPoint.new "ng")) + 1.
Proof.
  assert (is_vocal (FDPoint.letter (FDPoint.new "ng")) = false) as H by reflexivity.
  split; [exact H|]. exact (proj1 (proj2 (asdict_hits (FDPoint.new "ng")) H)).
Defined.

(** ** [count_fiture] *)

(** [fitur_spec] is a dictionary from feature to a dictionary whose entry
    ['letters'] is a dictionary keyed by letter: a list of the features,
    in order, each with the keys of its ['letters'], or with nothing when
    it has no entry ['letters'].  [fget_total] is a function of the
    caller and may raise. *)
Record letter_total := mk_letter_total {
  lt_letter : string;
  lt_total : Z
}.

Record fitur_total := mk_fitur_total {
  ft_fitur : string;
  ft_letters : list letter_total;
  ft_total : Z
}.

(** The loop over [letters], from the current [temp] and [total]. *)
Fixpoint count_letters (fget_total : string → error + Z) (letters : list string)
    (temp : list letter_total) (total : Z) : error + (list letter_total * Z) :=
  match letters with
  | [] => inr (temp, total)
  | letter :: letters' =>
      match fget_total letter with
      | inl e => inl e
      | inr total_in_letter =>
          count_letters fget_total letters'
            (temp ++ [mk_letter_total letter total_in_letter])
            (total + total_in_letter)
      end
  end.

(** The loop over the features, from the current [fitur_data]. *)
Fixpoint count_fiturs (fget_total : string → error + Z)
    (fitur_spec : list (string * option (list string)))
    (fitur_data : list fitur_total) : error + list fitur_total :=
  match fitur_spec with
  | [] => inr fitur_data
  | (fitur, entry) :: fitur_spec' =>
      match entry with
      | None => inl (KeyError "letters")
      | Some letters =>
          match count_letters fget_total letters [] 0 with
          | inl e => inl e
          | inr (temp, total) =>
              count_fiturs fget_total fitur_spec'
                (fitur_data ++ [mk_fitur_total fitur temp total])
          end
      end
  end.

Definition count_fiture (fitur_spec : list (string * option (list string)))
    (fget_total : string → error + Z) : error + list fitur_total :=
  count_fiturs fget_total fitur_spec [].

Definition sum_totals (lts : list letter_total) : Z :=
  foldr Z.add 0 (lt_total <$> lts).

(** The record of a feature: its letters in order, each with the total
    [fget_total] gave, and their sum. *)
Definition fitur_record (fget_total : string → error + Z)
    (fe : string * option (list string)) (d : fitur_total) : Prop :=
  ft_fitur d = fe.1 ∧
  ∃ letters, fe.2 = Some letters ∧
    Forall2 (λ l lt, lt_letter lt = l ∧ fget_total l = inr (lt_total lt))
      letters (ft_letters d) ∧
    ft_total d = sum_totals (ft_letters d).

Lemma sum_totals_cons lt lts : sum_totals (lt :: lts) = lt_total lt + sum_totals lts.
Proof. reflexivity. Qed.

Lemma count_letters_spec fget letters temp total temp' total' :
  count_letters fget letters temp total = inr (temp', total') →
  ∃ new, temp' = temp ++ new ∧
    Forall2 (λ l lt, lt_letter lt = l ∧ fget l = inr (lt_total lt)) letters new ∧
    total' = total + sum_totals new.
Proof.
  revert temp total. induction letters as [|l letters IH]; intros temp total.
  - intros [= <- <-]. exists []. rewrite app_nil_r. split_and!; [done|constructor|].
    change (sum_totals []) with 0. lia.
  - cbn [count_letters]. destruct (fget l) as [e|t] eqn:E; [done|].
    intros (new & -> & Hnew & ->)%IH.
    exists (mk_letter_total l t :: new). rewrite <- (assoc_L (++)).
    split_and!; [done|by constructor|].
    rewrite sum_totals_cons. cbn [lt_total]. lia.
Qed.

Lemma count_fiturs_spec fget spec data docs :
  count_fiturs fget spec data = inr docs →
  ∃ new, docs = data ++ new ∧ Forall2 (fitur_record fget) spec new.
Proof.
  revert data. induction spec as [|[fitur entry] spec IH]; intros data.
  - intros [= <-]. exists []. by rewrite app_nil_r.
  - cbn [count_fiturs]. destruct entry as [letters|]; [|done].
    destruct (count_letters fget letters [] 0) as [e|[temp total]] eqn:E; [done|].
    apply count_letters_spec in E as (new & -> & Hnew & ->).
    intros (docs' & -> & Hdocs)%IH.
    eexists (_ :: docs'). rewrite <- (assoc_L (++)). split; [done|].
    constructor; [|done]. split; [done|]. exists letters.
    cbn [snd ft_letters ft_total app]. split_and!; [done|done|lia].
Qed.

(** X17.  When [count_fiture] returns, it gives one record per feature of
    [fitur_spec], in order; the record lists the letters of the feature in
    order, each with the total [fget_total] gave for it, and its own total
    is the sum of these.  A feature without an entry ['letters'], or a
    letter on which [fget_total] raises, makes the whole call raise. *)
Theorem count_fiture_totals (fitur_spec : list (string * option (list string)))
    (fget_total : string → error + Z) (docs : list fitur_total) :
  count_fiture fitur_spec fget_total = inr docs →
  Forall2 (fitur_record fget_total) fitur_spec docs.
Proof. unfold count_fiture. by intros (new & -> & H)%count_fiturs_spec. Qed.

Lemma count_fiture_totals_witness :
  count_fiture [("nasal", Some ["m"; "n"]); ("round", Some [])]
    (λ l, if decide (l = "m") then inr 3 else inr 4) =
    inr [mk_fitur_total "nasal" [mk_letter_total "m" 3; mk_letter_total "n" 4] 7;
         mk_fitur_total "round" [] 0] ∧
  Forall2 (fitur_record (λ l, if decide (l = "m") then inr 3 else inr 4))
    [("nasal", Some ["m"; "n"]); ("round", Some [])]
    [mk_fitur_total "nasal" [mk_letter_total "m" 3; mk_letter_total "n" 4] 7;
     mk_fitur_total "round" [] 0].
Proof.
  assert (count_fiture [("nasal", Some ["m"; "n"]); ("round", Some [])]
    (λ l, if decide (l = "m") then inr 3 else inr 4) =
    inr [mk_fitur_total "nasal" [mk_letter_total "m" 3; mk_letter_total "n" 4] 7;
         mk_fitur_total "round" [] 0]) as H by reflexivity.
  split; [exact H|]. exact (count_fiture_totals _ _ _ H).
Defined.
